(** * pgmigrate: catalog construction and the transactional apply protocol

    A shallow embedding of [migrator.go] (package [pgmigrate]) and the
    properties of its specification.

    Conventions of the embedding:
    - Go's [int] is taken to be 64 bits wide and is modelled by [Z]; the only
      place where the width is visible is [strconv.Atoi], whose range check
      is written out.
    - Go strings are byte strings: Rocq's [string].
    - A Go function returning [(T, error)] is a function into
      [T * option Error]; a [nil] error is [None].
    - [fs.FS] is modelled by the listing of its root directory.
    - [Conn] and [pgx.Tx] are interfaces in the source and type classes
      here; the migration code is written once against the classes. *)

From Stdlib Require Import ZArith Lia Ascii String.
From stdpp Require Import base tactics option list strings gmap sorting.

Local Open Scope Z_scope.

(** ** Strings *)

Module Strings.

(** [strip_suffix suffix s] is [Some r] exactly when [s = r ++ suffix]. *)
Fixpoint strip_suffix (suffix s : string) : option string :=
  if String.eqb s suffix then Some EmptyString
  else match s with
       | EmptyString => None
       | String c s' => String c <$> strip_suffix suffix s'
       end.

(** [strings.HasSuffix] *)
Definition HasSuffix (s suffix : string) : bool :=
  match strip_suffix suffix s with Some _ => true | None => false end.

(** [strings.TrimSuffix]: [s] without the trailing [suffix]; [s] itself
    when it does not end in [suffix]. *)
Definition TrimSuffix (s suffix : string) : string :=
  match strip_suffix suffix s with Some r => r | None => s end.

Definition is_digit (c : ascii) : bool :=
  (48 <=? nat_of_ascii c)%nat && (nat_of_ascii c <=? 57)%nat.

Fixpoint all_digits (s : string) : bool :=
  match s with
  | EmptyString => true
  | String c s' => is_digit c && all_digits s'
  end.

(** the longest prefix of digits, and what follows it *)
Fixpoint span_digits (s : string) : string * string :=
  match s with
  | EmptyString => (EmptyString, EmptyString)
  | String c s' =>
      if is_digit c
      then let '(d, r) := span_digits s' in (String c d, r)
      else (EmptyString, s)
  end.

Definition newline : ascii := ascii_of_nat 10.

Fixpoint no_newline (s : string) : bool :=
  match s with
  | EmptyString => true
  | String c s' => negb (Ascii.eqb c newline) && no_newline s'
  end.

(** value of a string of decimal digits, most significant first *)
Fixpoint digits_value (acc : Z) (s : string) : Z :=
  match s with
  | EmptyString => acc
  | String c s' => digits_value (10 * acc + (Z.of_nat (nat_of_ascii c) - 48)) s'
  end.

End Strings.
Import Strings.

(** ** strconv.Atoi *)

Definition maxInt : Z := 2 ^ 63 - 1.
Definition minInt : Z := - 2 ^ 63.

(** [strconv.Atoi] on a 64-bit platform: an optional sign followed by a
    non-empty run of decimal digits, whose value must fit [int]. [None]
    stands for the error ([ErrSyntax] or [ErrRange]). *)
Definition Atoi (s : string) : option Z :=
  let '(neg, body) :=
    match s with
    | String "-" r => (true, r)
    | String "+" r => (false, r)
    | _ => (false, s)
    end in
  match body with
  | EmptyString => None
  | _ =>
      if all_digits body then
        let v := if neg : bool then - digits_value 0 body else digits_value 0 body in
        if (minInt <=? v) && (v <=? maxInt) then Some v else None
      else None
  end.

(** ** The filename pattern

    The source compiles the regular expression [pattern] below.  It is
    anchored at both ends; its first group is the maximal run of leading
    digits (the next character has to be [_]), its third group is fixed by
    the end of the name, and [.] does not match a newline.  So a match, when
    there is one, has only one way to split the name, and
    [FindStringSubmatch] is the following function.  The result holds the
    groups 1, 2 and 3. *)

Definition pattern : string := "^([0-9]+)_(.*)\.(up|down)\.sql$".

Inductive Direction := DirUp | DirDown.

#[export] Instance Direction_eq_dec : EqDecision Direction.
Proof. solve_decision. Defined.

Definition direction_tag (d : Direction) : string :=
  match d with DirUp => "up" | DirDown => "down" end.

Definition FindStringSubmatch (filename : string) : option (string * string * Direction) :=
  let '(digits, rest) := span_digits filename in
  match digits, rest with
  | EmptyString, _ => None
  | _, String "_" tail =>
      match strip_suffix ".up.sql" tail with
      | Some name => if no_newline name then Some (digits, name, DirUp) else None
      | None =>
          match strip_suffix ".down.sql" tail with
          | Some name => if no_newline name then Some (digits, name, DirDown) else None
          | None => None
          end
      end
  | _, _ => None
  end.

(** The language of the pattern, stated on its own: what it means for
    [filename] to split into the three groups. *)
Definition pattern_split (filename digits name : string) (d : Direction) : Prop :=
  filename = digits +:+ "_" +:+ name +:+ "." +:+ direction_tag d +:+ ".sql"
  ∧ digits ≠ EmptyString
  ∧ all_digits digits = true
  ∧ no_newline name = true.

(** ** Errors

    The source builds its errors with [fmt.Errorf]; the constructors keep
    the format and its arguments, and [ErrWrap] is the [%w] wrapping of a
    cause. *)

(** what the database driver reports *)
Inductive PgError :=
  | PgUndefinedTable (table : string)      (* the relation does not exist *)
  | PgUniqueViolation (table : string)     (* duplicate key *)
  | PgNoRows                               (* [pgx.ErrNoRows] from [Scan] *)
  | PgScriptFailed (reason : string)       (* the server rejects a script *)
  | PgConnFailed.                          (* the connection is unusable *)

Inductive Wrapping :=
  | WhileReadingPatchFile                  (* "while reading patch file: %w" *)
  | WhileReadingCurrentVersion             (* "while reading current version: %w" *)
  | WhileUpdatingCurrentVersion            (* "while updating current version: %w" *)
  | WhileApplying (filename : string)      (* "while applying %s: %w" *)
  | FailedToApply (filename : string)      (* "failed to apply %s: %w" *)
  | FailedToRetrieveVersion                (* "failed to retrieve current schema version: %w" *)
  | WhileCreatingVersionTable (table : string). (* "while creating version table %s: %w" *)

Inductive Error :=
  | ErrInvalidFilename (filename : string)             (* "invalid filename: %s" *)
  | ErrBadFilename (filename : string)                 (* "bad filename: %s: %w" *)
  | ErrUnexpectedSequence (filename : string) (pos : Z) (* "unexpected sequence - found %s at %d" *)
  | ErrScriptCount (ups downs : Z)                     (* "%d up scripts vs %d down scripts" *)
  | ErrUpDownMismatch (up down : string)               (* "up/down mismatch: %s, %s" *)
  | ErrExpectedVersion (before current : Z)            (* "expected current version %d, found %d" *)
  | ErrNotExist (filename : string)                    (* [fs.ErrNotExist] *)
  | ErrPg (e : PgError)
  | ErrWrap (w : Wrapping) (cause : Error).

(** ** The patch store

    [fs.FS], as far as the source uses it: the entries of the root
    directory, name and content, in the order [ReadDir] lists them. *)

Definition FS : Type := list (string * string).

(** [fs.Glob(filesystem, "*.sql")]: the star matches any run of characters
    of a name, so the names that end in [.sql], in listing order.  The
    pattern is well formed, hence [Glob] has no error to return and the
    source's "failed to read patches" branch is dead. *)
Definition Glob_sql (filesystem : FS) : list string :=
  filter (λ name, HasSuffix name ".sql" = true) (fst <$> filesystem).

(** [fs.ReadFile] *)
Fixpoint ReadFile (filesystem : FS) (filename : string) : option string :=
  match filesystem with
  | [] => None
  | (name, content) :: rest =>
      if String.eqb name filename then Some content else ReadFile rest filename
  end.

(** ** The catalog *)

Definition DefaultVersionTable : string := "schema_version".

Record Migration := mkMigration {
  Version : Z;
  Filename : string
}.

Record Migrator := mkMigrator {
  VersionTable : string;
  Filesystem : FS;
  MigrateUp : list Migration;
  MigrateDown : list Migration
}.

(** [Migrator{}], returned next to every error; its nil file system is
    the empty listing. *)
Definition zeroMigrator : Migrator :=
  {| VersionTable := ""; Filesystem := []; MigrateUp := []; MigrateDown := [] |}.

(** the order [sort.Slice] is asked for: by version *)
Definition version_le (a b : Migration) : Prop := Version a ≤ Version b.

(** [sort.Slice] with [less] comparing versions.  The Go sort is not
    stable: entries of equal version may come out in any order.  All that
    is known of it, and all this development uses, is that the outcome is
    a rearrangement of the slice in which no entry is followed by one of
    a smaller version. *)
Class SliceSorter := {
  sortSlice : list Migration → list Migration;
  sortSlice_perm : ∀ l, sortSlice l ≡ₚ l;
  sortSlice_sorted : ∀ l, Sorted version_le (sortSlice l)
}.

Section Catalog.
Context `{SliceSorter}.

(** the loop over the globbed names (source lines 63-84): the two
    slices grow by [append]; the first bad name ends the loop *)
Fixpoint scanFiles (strict : bool) (files : list string)
    (ups downs : list Migration) : Error + (list Migration * list Migration) :=
  match files with
  | [] => inr (ups, downs)
  | filename :: files' =>
      match FindStringSubmatch filename with
      | None =>
          if strict then inl (ErrInvalidFilename filename)
          else scanFiles strict files' ups downs
      | Some (digits, _, dir) =>
          match Atoi digits with
          | None => inl (ErrBadFilename filename)
          | Some id =>
              let mig := {| Version := id; Filename := filename |} in
              match dir with
              | DirUp => scanFiles strict files' (ups ++ [mig]) downs
              | DirDown => scanFiles strict files' ups (downs ++ [mig])
              end
          end
      end
  end.

(** [for i, v := range ms { if v.Version != i+1 { return error } }],
    entered with the index [i] of the head of [ms] *)
Fixpoint checkSequence (i : Z) (ms : list Migration) : option Error :=
  match ms with
  | [] => None
  | v :: ms' =>
      if bool_decide (Version v ≠ i + 1)
      then Some (ErrUnexpectedSequence (Filename v) (i + 1))
      else checkSequence (i + 1) ms'
  end.

(** the last loop (source lines 107-111); it runs when both slices have
    the same length, so [m.MigrateDown[i]] is always in range *)
Fixpoint checkPairs (ups downs : list Migration) : option Error :=
  match ups, downs with
  | v :: ups', d :: downs' =>
      if bool_decide (TrimSuffix (Filename v) ".up.sql" ≠ TrimSuffix (Filename d) ".down.sql")
      then Some (ErrUpDownMismatch (Filename v) (Filename d))
      else checkPairs ups' downs'
  | _, _ => None
  end.

Definition newMigrator (filesystem : FS) (strict : bool) : Migrator * option Error :=
  let files := Glob_sql filesystem in
  match scanFiles strict files [] [] with
  | inl e => (zeroMigrator, Some e)
  | inr (ups, downs) =>
      let ups := sortSlice ups in
      match checkSequence 0 ups with
      | Some e => (zeroMigrator, Some e)
      | None =>
          match downs with
          | [] =>
              ({| VersionTable := DefaultVersionTable; Filesystem := filesystem;
                  MigrateUp := ups; MigrateDown := [] |}, None)
          | _ :: _ =>
              let downs := sortSlice downs in
              if bool_decide (length ups ≠ length downs)
              then (zeroMigrator,
                    Some (ErrScriptCount (Z.of_nat (length ups))
                                         (Z.of_nat (length downs))))
              else
                match checkSequence 0 downs with
                | Some e => (zeroMigrator, Some e)
                | None =>
                    match checkPairs ups downs with
                    | Some e => (zeroMigrator, Some e)
                    | None =>
                        ({| VersionTable := DefaultVersionTable; Filesystem := filesystem;
                            MigrateUp := ups; MigrateDown := downs |}, None)
                    end
                end
          end
      end
  end.

(** [New]: strict about names *)
Definition New (filesystem : FS) : Migrator * option Error :=
  newMigrator filesystem true.

(** [NewLoose]: names outside the convention are passed over *)
Definition NewLoose (filesystem : FS) : Migrator * option Error :=
  newMigrator filesystem false.

End Catalog.

(** [Latest]: the version of the last up entry, 0 without entries *)
Definition Latest (m : Migrator) : Z :=
  match last (MigrateUp m) with
  | None => 0
  | Some v => Version v
  end.

(** ** The database, as the source sees it

    The six statements the source sends.  The first five are the fixed
    texts of the source with the table name filled in by [fmt.Sprintf];
    the last is the content of a patch file. *)
Inductive Sql :=
  | SqlCreateVersionTable (table : string)
      (* CREATE TABLE IF NOT EXISTS %s (id INTEGER PRIMARY KEY
         CONSTRAINT one_version CHECK(id = 1), version INTEGER NOT NULL) *)
  | SqlCountRows (table : string)              (* SELECT COUNT( * ) FROM %s *)
  | SqlInsertFirstRow (table : string)         (* INSERT INTO %s (id, version) VALUES (1, 0) *)
  | SqlSelectVersion (table : string)          (* select version from %s *)
  | SqlUpdateVersion (table : string) (v : Z)  (* update %s set version = $1 *)
  | SqlScript (text : string).

(** [pgx.Tx]: a transaction handle of type [T].  [Exec] runs a statement;
    [QueryRowScan] is [tx.QueryRow(...).Scan(&n)] for an integer [n]. *)
Class PgTx (T : Type) := {
  Exec : Sql → T → T * option Error;
  QueryRowScan : Sql → T → T * (Error + Z)
}.

(** [Conn]: something that can begin a transaction.  [Commit] and
    [Rollback] end the transaction and give the connection back. *)
Class Conn (C T : Type) := {
  Begin : C → (C * Error) + T;
  Commit : T → C * option Error;
  Rollback : T → C
}.

(** The body of a transaction: a computation on the handle that ends in
    an error or in a value. *)
Definition TxM (T A : Type) : Type := T → T * (Error + A).

Definition tx_ret {T A} (a : A) : TxM T A := λ tx, (tx, inr a).
Definition tx_fail {T A} (e : Error) : TxM T A := λ tx, (tx, inl e).
Definition tx_bind {T A B} (c : TxM T A) (k : A → TxM T B) : TxM T B :=
  λ tx, match c tx with
        | (tx', inl e) => (tx', inl e)
        | (tx', inr a) => k a tx'
        end.

(** [if err != nil { return fmt.Errorf("...: %w", err) }] *)
Definition tx_wrap {T A} (w : Wrapping) (c : TxM T A) : TxM T A :=
  λ tx, match c tx with
        | (tx', inl e) => (tx', inl (ErrWrap w e))
        | r => r
        end.

Declare Scope tx_scope.
Delimit Scope tx_scope with tx.
Notation "x <- c ;; k" := (tx_bind c (λ x, k))
  (at level 20, c at level 99, k at level 200, only parsing) : tx_scope.
Notation "c ;; k" := (tx_bind c (λ _, k))
  (at level 100, k at level 200, only parsing, right associativity) : tx_scope.

Section Engine.
Context {C T : Type} `{!PgTx T} `{!Conn C T}.

Definition exec (sql : Sql) : TxM T unit :=
  λ tx, match Exec sql tx with
        | (tx', Some e) => (tx', inl e)
        | (tx', None) => (tx', inr tt)
        end.

Definition queryInt (sql : Sql) : TxM T Z := QueryRowScan sql.

(** [pgx.BeginFunc]: begin, run [fn], roll back when it fails and commit
    when it does not; the error of [fn] is returned as it is. *)
Definition BeginFunc {A} (db : C) (fn : TxM T A) : C * (Error + A) :=
  match Begin db with
  | inl (db', e) => (db', inl e)
  | inr tx =>
      match fn tx with
      | (tx', inl e) => (Rollback tx', inl e)
      | (tx', inr a) =>
          match Commit tx' with
          | (db', Some e) => (db', inl e)
          | (db', None) => (db', inr a)
          end
      end
  end.

(** the function handed to [BeginFunc] by [initializeSchemaVersion] *)
Definition initializeSchemaVersion_fn (m : Migrator) : TxM T unit :=
  (exec (SqlCreateVersionTable (VersionTable m)) ;;
   count <- queryInt (SqlCountRows (VersionTable m)) ;;
   if count >? 0
   then tx_ret tt  (* Table is already populated, so has been set up previously *)
   else exec (SqlInsertFirstRow (VersionTable m)))%tx.

Definition initializeSchemaVersion (m : Migrator) (db : C) : C * option Error :=
  match BeginFunc db (initializeSchemaVersion_fn m) with
  | (db', inl e) => (db', Some (ErrWrap (WhileCreatingVersionTable (VersionTable m)) e))
  | (db', inr _) => (db', None)
  end.

(** [Current]: the Go result [(version, err)], next to the connection *)
Definition Current (m : Migrator) (db : C) : C * (Z * option Error) :=
  match initializeSchemaVersion m db with
  | (db', Some e) => (db', (0, Some e))
  | (db', None) =>
      match BeginFunc db' (queryInt (SqlSelectVersion (VersionTable m))) with
      | (db'', inl e) => (db'', (0, Some (ErrWrap FailedToRetrieveVersion e)))
      | (db'', inr version) => (db'', (version, None))
      end
  end.

(** the function handed to [BeginFunc] by [Apply] *)
Definition Apply_fn (m : Migrator) (before after : Z) (sql : string) : TxM T unit :=
  (current <- tx_wrap WhileReadingCurrentVersion
                (queryInt (SqlSelectVersion (VersionTable m))) ;;
   if bool_decide (current ≠ before)
   then tx_fail (ErrExpectedVersion before current)
   else
     tx_wrap WhileUpdatingCurrentVersion
       (exec (SqlUpdateVersion (VersionTable m) after)) ;;
     exec (SqlScript sql))%tx.

Definition Apply (m : Migrator) (db : C) (before after : Z) (filename : string)
    : C * option Error :=
  match ReadFile (Filesystem m) filename with
  | None => (db, Some (ErrWrap WhileReadingPatchFile (ErrNotExist filename)))
  | Some sql =>
      match BeginFunc db (Apply_fn m before after sql) with
      | (db', inl e) => (db', Some (ErrWrap (WhileApplying filename) e))
      | (db', inr _) => (db', None)
      end
  end.

(** the loop of [Up] over [m.MigrateUp], with its variable [current] *)
Fixpoint Up_loop (m : Migrator) (db : C) (current : Z) (ms : list Migration)
    : C * option Error :=
  match ms with
  | [] => (db, None)
  | v :: ms' =>
      if current >=? Version v then Up_loop m db current ms'
      else
        match Apply m db current (Version v) (Filename v) with
        | (db', Some e) => (db', Some (ErrWrap (FailedToApply (Filename v)) e))
        | (db', None) => Up_loop m db' (Version v) ms'
        end
  end.

Definition Up (m : Migrator) (db : C) : C * option Error :=
  match Current m db with
  | (db', (_, Some e)) => (db', Some e)
  | (db', (current, None)) => Up_loop m db' current (MigrateUp m)
  end.

(** [Migrate]: build the catalog strictly, then [Up] *)
Definition Migrate `{SliceSorter} (filesystem : FS) (db : C) : C * option Error :=
  match New filesystem with
  | (_, Some e) => (db, Some e)
  | (m, None) => Up m db
  end.

End Engine.

(** ** A model of the database server

    What a PostgreSQL session does with the six statements.  A version
    table holds at most one row (its key is pinned to 1), so the tables
    are a finite map from table names to the content of the table:
    [None] for a table without row, [Some v] for the row [(1, v)]; a name
    outside the map is a table that does not exist.  The rest of the
    database is a value of a type [U].  A patch script works on that
    rest, and what it does there is given by a [ScriptEngine]; the
    version tables are written by the source's own statements only.  The
    [version] column is taken wide enough for every version used. *)

Record DB (U : Type) := mkDB {
  tables : gmap string (option Z);
  user : U
}.
Arguments mkDB {U}.
Arguments tables {U}.
Arguments user {U}.

Class ScriptEngine (U : Type) := run_script : string → U → PgError + U.

Definition set_table {U} (t : string) (row : option Z) (d : DB U) : DB U :=
  {| tables := <[t := row]> (tables d); user := user d |}.

(** the version held by table [t], when the table exists and has its row *)
Definition version_of {U} (t : string) (d : DB U) : option Z :=
  tables d !! t ≫= id.

Section Server.
Context {U : Type} `{!ScriptEngine U}.

(** a statement run for its effect *)
Definition pg_exec (sql : Sql) (d : DB U) : PgError + DB U :=
  match sql with
  | SqlCreateVersionTable t =>
      match tables d !! t with
      | Some _ => inr d
      | None => inr (set_table t None d)
      end
  | SqlInsertFirstRow t =>
      match tables d !! t with
      | None => inl (PgUndefinedTable t)
      | Some None => inr (set_table t (Some 0) d)
      | Some (Some _) => inl (PgUniqueViolation t)
      end
  | SqlUpdateVersion t v =>
      match tables d !! t with
      | None => inl (PgUndefinedTable t)
      | Some None => inr d
      | Some (Some _) => inr (set_table t (Some v) d)
      end
  | SqlCountRows t | SqlSelectVersion t =>
      match tables d !! t with
      | None => inl (PgUndefinedTable t)
      | Some _ => inr d
      end
  | SqlScript text =>
      match run_script text (user d) with
      | inl e => inl e
      | inr u => inr {| tables := tables d; user := u |}
      end
  end.

(** a statement run for the integer in its first row; the three
    statements that return no row are never queried by the source *)
Definition pg_query (sql : Sql) (d : DB U) : PgError + Z :=
  match sql with
  | SqlCountRows t =>
      match tables d !! t with
      | None => inl (PgUndefinedTable t)
      | Some None => inr 0
      | Some (Some _) => inr 1
      end
  | SqlSelectVersion t =>
      match tables d !! t with
      | None => inl (PgUndefinedTable t)
      | Some None => inl PgNoRows
      | Some (Some v) => inr v
      end
  | _ => inl PgNoRows
  end.

(** What went over the connection.  The history is kept by the model
    only; it lets a property speak of the statements a call has sent. *)
Inductive Event :=
  | EvBegin
  | EvExec (sql : Sql)
  | EvQuery (sql : Sql)
  | EvCommit
  | EvRollback.

(** a connection with nobody else at work on the server *)
Record PgConn := mkPgConn {
  committed : DB U;
  history : list Event
}.

(** an open transaction: the state to go back to, the state the
    transaction sees, and the history so far *)
Record PgTxn := mkPgTxn {
  snapshot : DB U;
  working : DB U;
  tx_history : list Event
}.

(** The source leaves a transaction at its first failed statement, so
    the state of a transaction after a failure is of no consequence:
    the failed statement is taken to change nothing. *)
#[export] Instance pg_tx : PgTx PgTxn := {
  Exec sql tx :=
    let h := tx_history tx ++ [EvExec sql] in
    match pg_exec sql (working tx) with
    | inl e => (mkPgTxn (snapshot tx) (working tx) h, Some (ErrPg e))
    | inr d => (mkPgTxn (snapshot tx) d h, None)
    end;
  QueryRowScan sql tx :=
    let h := tx_history tx ++ [EvQuery sql] in
    (mkPgTxn (snapshot tx) (working tx) h,
     match pg_query sql (working tx) with
     | inl e => inl (ErrPg e)
     | inr n => inr n
     end)
}.

#[export] Instance pg_conn : Conn PgConn PgTxn := {
  Begin db := inr (mkPgTxn (committed db) (committed db) (history db ++ [EvBegin]));
  Commit tx := (mkPgConn (working tx) (tx_history tx ++ [EvCommit]), None);
  Rollback tx := mkPgConn (snapshot tx) (tx_history tx ++ [EvRollback])
}.

(** the patch scripts among the statements of a history, in order *)
Definition scripts_run (h : list Event) : list string :=
  omap (λ ev, match ev with EvExec (SqlScript text) => Some text | _ => None end) h.

(** *** A second session

    The same server with another session at work: once our transaction
    has sent [at_stmt] statements, the other session commits its own
    first row into table [rival_table] (creating the table if it has
    to).  From then on the row is there for us as well, as it is under
    PostgreSQL's default isolation. *)
Definition rival_bootstrap (t : string) (d : DB U) : DB U :=
  match tables d !! t with
  | Some (Some _) => d
  | _ => set_table t (Some 0) d
  end.

Record Rival := mkRival { at_stmt : nat; rival_table : string }.

Record RaceConn := mkRaceConn {
  rc_conn : PgConn;
  rc_rival : option Rival
}.

Record RaceTxn := mkRaceTxn {
  rt_txn : PgTxn;
  rt_sent : nat;
  rt_rival : option Rival
}.

(** the other session gets its turn before our next statement *)
Definition rival_turn (tx : RaceTxn) : RaceTxn :=
  match rt_rival tx with
  | Some r =>
      if bool_decide (at_stmt r = rt_sent tx) then
        let t := rival_table r in
        mkRaceTxn (mkPgTxn (rival_bootstrap t (snapshot (rt_txn tx)))
                           (rival_bootstrap t (working (rt_txn tx)))
                           (tx_history (rt_txn tx)))
                  (rt_sent tx) None
      else tx
  | None => tx
  end.

#[export] Instance race_tx : PgTx RaceTxn := {
  Exec sql tx :=
    let tx := rival_turn tx in
    let '(t', r) := Exec sql (rt_txn tx) in
    (mkRaceTxn t' (S (rt_sent tx)) (rt_rival tx), r);
  QueryRowScan sql tx :=
    let tx := rival_turn tx in
    let '(t', r) := QueryRowScan sql (rt_txn tx) in
    (mkRaceTxn t' (S (rt_sent tx)) (rt_rival tx), r)
}.

#[export] Instance race_conn : Conn RaceConn RaceTxn := {
  Begin db :=
    match Begin (rc_conn db) with
    | inl (c, e) => inl (mkRaceConn c (rc_rival db), e)
    | inr t => inr (mkRaceTxn t 0 (rc_rival db))
    end;
  Commit tx := let '(c, r) := Commit (rt_txn tx) in (mkRaceConn c (rt_rival tx), r);
  Rollback tx := mkRaceConn (Rollback (rt_txn tx)) (rt_rival tx)
}.

End Server.
Arguments PgConn : clear implicits.
Arguments PgTxn : clear implicits.
Arguments RaceConn : clear implicits.
Arguments RaceTxn : clear implicits.

(** ** Concrete instances, to run the definitions *)

#[local] Instance version_le_dec : RelDecision version_le.
Proof. intros a b. unfold version_le. apply _. Defined.

#[local] Instance version_le_total : Total version_le.
Proof. intros a b. unfold version_le. lia. Qed.

(** a sorter that is stable: stdpp's merge sort *)
#[export] Instance stable_sorter : SliceSorter := {
  sortSlice := merge_sort version_le;
  sortSlice_perm := merge_sort_Permutation version_le;
  sortSlice_sorted := Sorted_merge_sort version_le
}.

(** a script engine: the rest of the database is the list of the scripts
    that ran, and a script fails when its text starts with [!] *)
#[export] Instance log_engine : ScriptEngine (list string) :=
  λ text u,
    match text with
    | String "!" _ => inl (PgScriptFailed text)
    | _ => inr (u ++ [text])
    end.

Definition fresh_db : DB (list string) := {| tables := ∅; user := [] |}.
Definition fresh_conn : PgConn (list string) := mkPgConn fresh_db [].

(** ** Vocabulary of the specification *)

(** the version a name announces: the value of its digit group *)
Definition name_version (filename : string) : Z :=
  match FindStringSubmatch filename with
  | Some (digits, _, _) => digits_value 0 digits
  | None => 0
  end.

(** the base name: the name without direction tag and extension *)
Definition base_name (filename : string) : string :=
  match FindStringSubmatch filename with
  | Some (digits, name, _) => digits +:+ "_" +:+ name
  | None => filename
  end.

Definition is_script (d : Direction) (filename : string) : bool :=
  match FindStringSubmatch filename with
  | Some (_, _, d') => bool_decide (d = d')
  | None => false
  end.

(** the up scripts and the down scripts of a listing *)
Definition up_files (files : list string) : list string :=
  filter (λ f, is_script DirUp f = true) files.
Definition down_files (files : list string) : list string :=
  filter (λ f, is_script DirDown f = true) files.

(** the names that follow the convention *)
Definition follows_convention (filename : string) : Prop :=
  is_Some (FindStringSubmatch filename).

(** the patch store without the files outside the convention *)
Definition matching_only (filesystem : FS) : FS :=
  filter (λ entry, follows_convention entry.1) filesystem.

(** the version persisted under [m]'s table name, 0 before any bootstrap *)
Definition persisted_version {U} (m : Migrator) (d : DB U) : Z :=
  default 0 (version_of (VersionTable m) d).

(** the database once [m]'s version table is bootstrapped: as it is when
    the row exists, with the row [(1, 0)] otherwise *)
Definition bootstrapped {U} (m : Migrator) (d : DB U) : DB U :=
  match version_of (VersionTable m) d with
  | Some _ => d
  | None => set_table (VersionTable m) (Some 0) d
  end.

(** the catalog entry of a name *)
Definition entry (filename : string) : Migration :=
  {| Version := name_version filename; Filename := filename |}.

(** the announced version fits Go's [int] *)
Definition in_range (filename : string) : Prop := name_version filename ≤ maxInt.

(** ** Patch stores to run the definitions on *)

(** the scenario of the specification: two up scripts *)
Definition two_step_fs : FS :=
  [("1_init.up.sql", "create table t(x int);");
   ("2_seed.up.sql", "insert into t values (1);")].

(** versions 1, 2 and 4 *)
Definition gap_fs : FS :=
  [("1_a.up.sql", "a"); ("2_b.up.sql", "b"); ("4_d.up.sql", "d")].

(** a single file, of version 5 *)
Definition weird_fs : FS := [("5_weird.up.sql", "w")].

(** a file outside the convention next to a script *)
Definition notes_fs : FS := [("1_init.up.sql", "create table t(x int);"); ("notes.sql", "n")].

(** up and down scripts in pairs, as [ReadDir] lists them *)
Definition paired_fs : FS :=
  [("1_a.down.sql", "drop a"); ("1_a.up.sql", "make a");
   ("2_b.down.sql", "drop b"); ("2_b.up.sql", "make b")].

(** a version beyond [int], listed before a file outside the convention *)
Definition overflow_fs : FS :=
  [("99999999999999999999_a.up.sql", "a"); ("notes.sql", "n")].

(** what a bootstrap sends: the row is inserted only when it is missing *)
Definition bootstrap_events {U} (m : Migrator) (d : DB U) : list Event :=
  [EvBegin; EvExec (SqlCreateVersionTable (VersionTable m));
   EvQuery (SqlCountRows (VersionTable m))]
  ++ match version_of (VersionTable m) d with
     | Some _ => []
     | None => [EvExec (SqlInsertFirstRow (VersionTable m))]
     end
  ++ [EvCommit].

(** what the read of the version sends *)
Definition read_events (m : Migrator) : list Event :=
  [EvBegin; EvQuery (SqlSelectVersion (VersionTable m)); EvCommit].

(** the three statements of [Apply], in the order they are sent *)
Definition apply_events (m : Migrator) (after : Z) (sql : string) : list Event :=
  [EvBegin; EvQuery (SqlSelectVersion (VersionTable m));
   EvExec (SqlUpdateVersion (VersionTable m) after); EvExec (SqlScript sql)].

(** the order of the versions of a catalog *)
Definition version_lt (a b : Migration) : Prop := Version a < Version b.

(** the entries [Up] has to apply from version [current] on *)
Definition pending (current : Z) (ms : list Migration) : list Migration :=
  filter (λ v, current < Version v) ms.

(** [texts] are the contents of the patch files of the entries [ms] *)
Definition scripts_of (m : Migrator) (ms : list Migration) (texts : list string) : Prop :=
  Forall2 (λ v text, ReadFile (Filesystem m) (Filename v) = Some text) ms texts.

(** a database that is ahead of the two-step catalog *)
Definition ahead_conn : PgConn (list string) :=
  mkPgConn {| tables := {[ "schema_version" := Some 5 ]}; user := [] |} [].

(** a catalog whose patch file is gone from the store *)
Definition orphan_catalog : Migrator :=
  {| VersionTable := DefaultVersionTable; Filesystem := [];
     MigrateUp := [ {| Version := 1; Filename := "1_init.up.sql" |} ];
     MigrateDown := [] |}.

(** the two-step patch set with a second script that the server rejects *)
Definition failing_fs : FS :=
  [("1_init.up.sql", "create table t(x int);"); ("2_seed.up.sql", "!insert")].

(** a first run that loses the race for the first row: the other session
    commits its row after our count, before our insert *)
Definition racing_conn : RaceConn (list string) :=
  mkRaceConn fresh_conn (Some (mkRival 2 DefaultVersionTable)).

(** the two-step catalog, and databases at versions 0 and 1 of it *)
Definition two_step_catalog : Migrator := (New two_step_fs).1.
Definition failing_catalog : Migrator := (New failing_fs).1.

Definition zero_conn : PgConn (list string) :=
  mkPgConn {| tables := {[ "schema_version" := Some 0 ]}; user := [] |} [].

Definition step_one_conn : PgConn (list string) :=
  mkPgConn {| tables := {[ "schema_version" := Some 1 ]};
              user := ["create table t(x int);"] |} [].

(** ** Further vocabulary *)

(** another lawful outcome of [sort.Slice]: among entries of one version
    the later one of the slice comes first *)
Definition reversing_sorter : SliceSorter := {|
  sortSlice l := merge_sort version_le (reverse l);
  sortSlice_perm l :=
    transitivity (merge_sort_Permutation version_le (reverse l)) (reverse_Permutation l);
  sortSlice_sorted l := Sorted_merge_sort version_le (reverse l)
|}.

(** what an error of the build says about the listing [files] it was
    built from *)
Definition justified (strict : bool) (files : list string) (e : Error) : Prop :=
  match e with
  | ErrInvalidFilename f => strict = true ∧ f ∈ files ∧ ¬ follows_convention f
  | ErrBadFilename f => f ∈ files ∧ follows_convention f ∧ ¬ in_range f
  | ErrUnexpectedSequence f pos =>
      f ∈ files ∧ follows_convention f ∧ 1 ≤ pos ∧ name_version f ≠ pos
  | ErrScriptCount ups downs =>
      ups = Z.of_nat (length (up_files files))
      ∧ downs = Z.of_nat (length (down_files files))
      ∧ ups ≠ downs ∧ 0 < downs
  | ErrUpDownMismatch up down =>
      up ∈ up_files files ∧ down ∈ down_files files ∧ base_name up ≠ base_name down
  | _ => False
  end.

(** why [Apply] fails on the entry [v] of the catalog [m]: its file is
    not in the store, or the server rejects the script *)
Definition apply_failure {U} `{!ScriptEngine U} (m : Migrator) (v : Migration) (e : Error) : Prop :=
  (ReadFile (Filesystem m) (Filename v) = None
   ∧ e = ErrWrap WhileReadingPatchFile (ErrNotExist (Filename v)))
  ∨ (∃ sql u pe,
       ReadFile (Filesystem m) (Filename v) = Some sql
       ∧ run_script sql u = inl pe
       ∧ e = ErrWrap (WhileApplying (Filename v)) (ErrPg pe)).

(** more down scripts than up scripts *)
Definition lonely_down_fs : FS :=
  [("1_a.down.sql", "drop a"); ("1_a.up.sql", "make a"); ("2_b.down.sql", "drop b")].

(** a connection to a server that cannot be reached: nothing begins *)
Definition offline_tx : PgTx unit := {|
  Exec _ tx := (tx, Some (ErrPg PgConnFailed));
  QueryRowScan _ tx := (tx, inl (ErrPg PgConnFailed))
|}.

Definition offline_conn : Conn unit unit := {|
  Begin db := inl (db, ErrPg PgConnFailed);
  Commit tx := (tx, Some (ErrPg PgConnFailed));
  Rollback tx := tx
|}.

(** every script of the patch store runs on every state of the database *)
Definition scripts_always_run {U} `{!ScriptEngine U} (filesystem : FS) : Prop :=
  ∀ name text u, (name, text) ∈ filesystem → ∃ u', run_script text u = inr u'.

(** the patch store without the entries that [Glob] does not list *)
Definition sql_only (filesystem : FS) : FS :=
  filter (λ entry, HasSuffix entry.1 ".sql" = true) filesystem.

(** * Properties *)

(** ** Strings *)

Section StringFacts.
Implicit Types s r suffix : string.

Lemma app_cons c s1 s2 : String c s1 +:+ s2 = String c (s1 +:+ s2).
Proof. reflexivity. Qed.

Lemma app_empty_l s : "" +:+ s = s.
Proof. reflexivity. Qed.

Lemma app_assoc' s1 s2 s3 : (s1 +:+ s2) +:+ s3 = s1 +:+ (s2 +:+ s3).
Proof.
  induction s1 as [|c s1 IH]; [done|]. by rewrite !app_cons, IH.
Qed.

Lemma length_app' s1 s2 :
  String.length (s1 +:+ s2) = (String.length s1 + String.length s2)%nat.
Proof.
  induction s1 as [|c s1 IH]; [done|]. rewrite app_cons. simpl. by rewrite IH.
Qed.

(** two splits of one string at the same distance from its end agree *)
Lemma app_inj_tail r1 r2 s1 s2 :
  String.length s1 = String.length s2 →
  r1 +:+ s1 = r2 +:+ s2 → r1 = r2 ∧ s1 = s2.
Proof.
  revert r2. induction r1 as [|c r1 IH]; intros [|c' r2] Hlen Heq;
    rewrite ?app_cons, ?app_empty_l in Heq.
  - done.
  - subst s1. simpl in Hlen. rewrite length_app' in Hlen. lia.
  - subst s2. simpl in Hlen. rewrite length_app' in Hlen. lia.
  - injection Heq as -> Heq. destruct (IH _ Hlen Heq) as [-> ->]. done.
Qed.

Lemma strip_suffix_unfold suffix s :
  strip_suffix suffix s =
    if String.eqb s suffix then Some ""
    else match s with
         | "" => None
         | String c s' => String c <$> strip_suffix suffix s'
         end.
Proof. by destruct s. Qed.

Lemma strip_suffix_Some suffix s r :
  strip_suffix suffix s = Some r ↔ s = r +:+ suffix.
Proof.
  split.
  - revert r. induction s as [|c s IH]; intros r;
      rewrite strip_suffix_unfold.
    + by destruct (String.eqb_spec "" suffix) as [<-|_]; [intros [= <-]|].
    + destruct (String.eqb_spec (String c s) suffix) as [<-|_];
        [by intros [= <-]|].
      destruct (strip_suffix suffix s) as [r'|] eqn:E; [|done].
      intros [= <-]. rewrite app_cons. f_equal. by apply IH.
  - revert s. induction r as [|c r IH]; intros s ->;
      rewrite ?app_cons, ?app_empty_l, strip_suffix_unfold.
    + by rewrite String.eqb_refl.
    + destruct (String.eqb_spec (String c (r +:+ suffix)) suffix) as [E|_].
      * apply (f_equal String.length) in E. simpl in E.
        rewrite length_app' in E. lia.
      * by rewrite (IH _ eq_refl).
Qed.

Lemma strip_suffix_app suffix r : strip_suffix suffix (r +:+ suffix) = Some r.
Proof. by apply strip_suffix_Some. Qed.

Lemma TrimSuffix_app suffix r : TrimSuffix (r +:+ suffix) suffix = r.
Proof. unfold TrimSuffix. by rewrite strip_suffix_app. Qed.

Lemma HasSuffix_app suffix r : HasSuffix (r +:+ suffix) suffix = true.
Proof. unfold HasSuffix. by rewrite strip_suffix_app. Qed.

Lemma span_digits_split s d r :
  span_digits s = (d, r) → s = d +:+ r ∧ all_digits d = true.
Proof.
  revert d r. induction s as [|c s IH]; intros d r; simpl.
  - by intros [= <- <-].
  - destruct (is_digit c) eqn:Hc.
    + destruct (span_digits s) as [d' r'] eqn:E. intros [= <- <-].
      destruct (IH _ _ eq_refl) as [-> Hd]. rewrite app_cons. simpl.
      by rewrite Hc, Hd.
    + by intros [= <- <-].
Qed.

(** the digits of a name end where the underscore stands *)
Lemma span_digits_underscore d tail :
  all_digits d = true → span_digits (d +:+ String "_" tail) = (d, String "_" tail).
Proof.
  induction d as [|c d IH]; [done|]. rewrite app_cons. simpl.
  intros [Hc Hd]%andb_prop. by rewrite Hc, (IH Hd).
Qed.

Lemma all_digits_app d1 d2 :
  all_digits (d1 +:+ d2) = all_digits d1 && all_digits d2.
Proof.
  induction d1 as [|c d1 IH]; [done|]. rewrite app_cons. simpl.
  by rewrite IH, andb_assoc.
Qed.

End StringFacts.

(** ** The filename pattern *)

Lemma up_is_not_down r1 r2 : r1 +:+ ".up.sql" ≠ r2 +:+ ".down.sql".
Proof.
  intros E. change ".down.sql" with (".d" +:+ "own.sql") in E.
  rewrite <- app_assoc' in E.
  by apply app_inj_tail in E as [_ [=]].
Qed.

(** [FindStringSubmatch] answers with the one split the pattern allows,
    and answers whenever there is a split. *)
Lemma FindStringSubmatch_Some filename digits name d :
  FindStringSubmatch filename = Some (digits, name, d) ↔
  pattern_split filename digits name d.
Proof.
  unfold FindStringSubmatch, pattern_split. split.
  - destruct (span_digits filename) as [ds rest] eqn:Hspan.
    apply span_digits_split in Hspan as [-> Hds].
    destruct ds as [|c ds]; [done|].
    destruct rest as [|u tail]; [done|].
    destruct (Ascii.eqb_spec u "_") as [->|Hu]; cycle 1.
    { destruct u as [[] [] [] [] [] [] [] []]; try done. }
    destruct (strip_suffix ".up.sql" tail) as [n|] eqn:Hup.
    + apply strip_suffix_Some in Hup as ->.
      destruct (no_newline n) eqn:Hn; [|done].
      intros [= <- <- <-]. done.
    + destruct (strip_suffix ".down.sql" tail) as [n|] eqn:Hdown; [|done].
      apply strip_suffix_Some in Hdown as ->.
      destruct (no_newline n) eqn:Hn; [|done].
      intros [= <- <- <-]. done.
  - intros (-> & Hne & Hds & Hn).
    change (digits +:+ "_" +:+ name +:+ "." +:+ direction_tag d +:+ ".sql")
      with (digits +:+ String "_" (name +:+ "." +:+ direction_tag d +:+ ".sql")).
    rewrite span_digits_underscore by done.
    destruct digits as [|c ds]; [done|].
    destruct d; simpl direction_tag.
    + change (name +:+ "." +:+ "up" +:+ ".sql") with (name +:+ ".up.sql").
      by rewrite strip_suffix_app, Hn.
    + change (name +:+ "." +:+ "down" +:+ ".sql") with (name +:+ ".down.sql").
      destruct (strip_suffix ".up.sql" (name +:+ ".down.sql")) as [r|] eqn:E.
      { apply strip_suffix_Some in E. symmetry in E. by apply up_is_not_down in E. }
      by rewrite strip_suffix_app, Hn.
Qed.

(** ** Reading versions *)

Lemma is_digit_bounds c :
  is_digit c = true → (48 ≤ nat_of_ascii c ≤ 57)%nat.
Proof.
  unfold is_digit. intros [H1 H2]%andb_prop.
  apply Nat.leb_le in H1, H2. lia.
Qed.

Lemma digits_value_nonneg s : ∀ acc,
  0 ≤ acc → all_digits s = true → 0 ≤ digits_value acc s.
Proof.
  induction s as [|c s IH]; intros acc Hacc; simpl; [done|].
  intros [Hc Hs]%andb_prop. apply is_digit_bounds in Hc.
  apply IH; [lia | done].
Qed.

(** on a run of digits [Atoi] can only fail by overflow *)
Lemma Atoi_digits d :
  all_digits d = true → d ≠ "" →
  Atoi d = if digits_value 0 d <=? maxInt then Some (digits_value 0 d) else None.
Proof.
  intros Hd Hne. destruct d as [|c d]; [done|].
  pose proof (digits_value_nonneg _ 0 ltac:(done) Hd) as Hpos.
  assert (Atoi (String c d) =
          if (minInt <=? digits_value 0 (String c d))
             && (digits_value 0 (String c d) <=? maxInt)
          then Some (digits_value 0 (String c d)) else None) as ->.
  { unfold Atoi. simpl in Hd. apply andb_prop in Hd as [Hc Hd'].
    assert (all_digits (String c d) = true) as Hall by (simpl; by rewrite Hc, Hd').
    destruct c as [[] [] [] [] [] [] [] []]; try discriminate Hc;
      by rewrite Hall. }
  replace (minInt <=? digits_value 0 (String c d)) with true; [done|].
  symmetry. apply Z.leb_le. unfold minInt. lia.
Qed.

Lemma FindStringSubmatch_digits filename digits name d :
  FindStringSubmatch filename = Some (digits, name, d) →
  Atoi digits = if name_version filename <=? maxInt
                then Some (name_version filename) else None.
Proof.
  intros Hm. unfold name_version. rewrite Hm.
  apply FindStringSubmatch_Some in Hm as (_ & Hne & Hds & _).
  by apply Atoi_digits.
Qed.

(** ** The scan of the listing *)

Section CatalogFacts.
Context `{SliceSorter}.
Implicit Types (files : list string) (ups downs : list Migration).

Lemma up_files_cons f files :
  up_files (f :: files) =
    if is_script DirUp f then f :: up_files files else up_files files.
Proof.
  unfold up_files. rewrite filter_cons.
  destruct (is_script DirUp f); by case_decide.
Qed.

Lemma down_files_cons f files :
  down_files (f :: files) =
    if is_script DirDown f then f :: down_files files else down_files files.
Proof.
  unfold down_files. rewrite filter_cons.
  destruct (is_script DirDown f); by case_decide.
Qed.

(** one turn of the loop, by the cases of the name *)
Lemma scanFiles_cons strict f files ups downs :
  scanFiles strict (f :: files) ups downs =
    match FindStringSubmatch f with
    | None => if strict then inl (ErrInvalidFilename f)
              else scanFiles strict files ups downs
    | Some (_, _, d) =>
        if name_version f <=? maxInt then
          match d with
          | DirUp => scanFiles strict files (ups ++ [entry f]) downs
          | DirDown => scanFiles strict files ups (downs ++ [entry f])
          end
        else inl (ErrBadFilename f)
    end.
Proof.
  simpl. destruct (FindStringSubmatch f) as [[[ds n] d]|] eqn:Hm; [|done].
  rewrite (FindStringSubmatch_digits _ _ _ _ Hm).
  by destruct (name_version f <=? maxInt).
Qed.

(** what a scan that ends well has collected *)
Lemma scanFiles_inr strict files : ∀ ups downs ups' downs',
  scanFiles strict files ups downs = inr (ups', downs') →
  ups' = ups ++ (entry <$> up_files files)
  ∧ downs' = downs ++ (entry <$> down_files files).
Proof.
  induction files as [|f files IH]; intros ups downs ups' downs'.
  { simpl. intros [= <- <-]. by rewrite !app_nil_r. }
  rewrite scanFiles_cons, up_files_cons, down_files_cons. unfold is_script.
  destruct (FindStringSubmatch f) as [[[ds n] d]|].
  - destruct (name_version f <=? maxInt); [|done].
    destruct d; intros [-> ->]%IH; simpl; by rewrite <- ?(assoc_L (++)).
  - destruct strict; [done|]. apply IH.
Qed.

(** when a scan ends well *)
Lemma scanFiles_ok strict files : ∀ ups downs,
  Forall (λ f, follows_convention f → in_range f) files →
  (strict = true → Forall follows_convention files) →
  scanFiles strict files ups downs =
    inr (ups ++ (entry <$> up_files files), downs ++ (entry <$> down_files files)).
Proof.
  induction files as [|f files IH]; intros ups downs Hrange Hstrict.
  { simpl. by rewrite !app_nil_r. }
  apply Forall_cons in Hrange as [Hf Hrange].
  assert (strict = true → follows_convention f ∧ Forall follows_convention files)
    as Hstrict' by (intros ?; by apply Forall_cons, Hstrict).
  rewrite scanFiles_cons, up_files_cons, down_files_cons. unfold is_script.
  unfold follows_convention, in_range in *.
  destruct (FindStringSubmatch f) as [[[ds n] d]|].
  - rewrite (proj2 (Z.leb_le _ _)) by (by apply Hf).
    assert (strict = true → Forall follows_convention files) as Hrest
      by (intros ?; by apply Hstrict').
    destruct d; simpl; rewrite IH by done; by rewrite <- ?(assoc_L (++)).
  - destruct strict.
    + destruct Hstrict' as [[? [=]] _]; done.
    + simpl. by apply IH.
Qed.

(** the loose scan is the scan, strict or not, of the names that follow
    the convention *)
Lemma scanFiles_loose strict files : ∀ ups downs,
  scanFiles false files ups downs =
  scanFiles strict (filter follows_convention files) ups downs.
Proof.
  induction files as [|f files IH]; intros ups downs; [done|].
  rewrite filter_cons. case_decide as Hf.
  - rewrite !scanFiles_cons. destruct Hf as [[[ds n] d] ->].
    destruct (name_version f <=? maxInt); [|done]. by destruct d.
  - rewrite scanFiles_cons. unfold follows_convention in Hf.
    destruct (FindStringSubmatch f); [|done]. by destruct Hf.
Qed.

(** the strict scan stops at the first name outside the convention *)
Lemma scanFiles_strict_stop pre f post : ∀ ups downs,
  Forall (λ g, follows_convention g ∧ in_range g) pre →
  FindStringSubmatch f = None →
  scanFiles true (pre ++ f :: post) ups downs = inl (ErrInvalidFilename f).
Proof.
  induction pre as [|g pre IH]; intros ups downs Hpre Hf.
  { simpl. by rewrite Hf. }
  apply Forall_cons in Hpre as [[[[[ds n] d] Hg] Hr] Hpre].
  rewrite <- app_comm_cons, scanFiles_cons, Hg.
  rewrite (proj2 (Z.leb_le _ _)) by done.
  destruct d; by apply IH.
Qed.

(** and does not end well when there is such a name *)
Lemma scanFiles_strict_fails files : ∀ ups downs,
  ¬ Forall follows_convention files →
  ∃ e, scanFiles true files ups downs = inl e.
Proof.
  induction files as [|f files IH]; intros ups downs Hbad.
  { by destruct Hbad. }
  rewrite scanFiles_cons.
  destruct (FindStringSubmatch f) as [[[ds n] d]|] eqn:Hm; [|by eexists].
  destruct (name_version f <=? maxInt); [|by eexists].
  assert (¬ Forall follows_convention files) as Hbad'.
  { intros Hall. apply Hbad. constructor; [by eexists | done]. }
  destruct d; by apply IH.
Qed.

End CatalogFacts.

(** ** The checks on the sorted slices *)

Lemma checkSequence_None ms : ∀ i,
  checkSequence i ms = None ↔ Version <$> ms = seqZ (i + 1) (Z.of_nat (length ms)).
Proof.
  induction ms as [|v ms IH]; intros i; simpl.
  { by rewrite seqZ_nil. }
  rewrite seqZ_cons by lia.
  replace (Z.pred (Z.of_nat (S (length ms)))) with (Z.of_nat (length ms)) by lia.
  replace (Z.succ (i + 1)) with (i + 1 + 1) by lia.
  case_bool_decide as Hv.
  - split; [done|]. intros [= ? _]. done.
  - rewrite IH, Hv. split; [intros E; by f_equal | by intros [= ?]].
Qed.

Lemma checkPairs_None ups : ∀ downs i u d,
  checkPairs ups downs = None →
  ups !! i = Some u → downs !! i = Some d →
  TrimSuffix (Filename u) ".up.sql" = TrimSuffix (Filename d) ".down.sql".
Proof.
  induction ups as [|v ups IH]; intros [|w downs] i u d; simpl; try done.
  case_bool_decide as Hvw; [done|].
  destruct i as [|i]; simpl.
  - by intros _ [= <-] [= <-].
  - apply IH.
Qed.

Lemma Sorted_seqZ m n : Sorted Z.le (seqZ m n).
Proof.
  destruct (decide (n ≤ 0)) as [|Hn]; [by rewrite seqZ_nil|].
  rewrite <- (Z2Nat.id n) by lia. generalize (Z.to_nat n) as k. clear n Hn.
  intros k. revert m. induction k as [|k IH]; intros m.
  { by rewrite seqZ_nil. }
  rewrite seqZ_cons by lia.
  replace (Z.pred (Z.of_nat (S k))) with (Z.of_nat k) by lia.
  constructor; [apply IH|].
  destruct k as [|k]; [by rewrite seqZ_nil|].
  rewrite seqZ_cons by lia. constructor. lia.
Qed.

Section SortFacts.
Context `{SliceSorter}.

Lemma sortSlice_versions_sorted ms : Sorted Z.le (Version <$> sortSlice ms).
Proof. apply (Sorted_fmap _ version_le); [done | apply sortSlice_sorted]. Qed.

(** a slice whose versions are 1..N in some order is in order once sorted *)
Lemma sortSlice_dense ms (N : nat) :
  Version <$> ms ≡ₚ seqZ 1 (Z.of_nat N) → Version <$> sortSlice ms = seqZ 1 (Z.of_nat N).
Proof.
  intros Hp. apply (Sorted_unique Z.le).
  - apply sortSlice_versions_sorted.
  - apply Sorted_seqZ.
  - by rewrite (sortSlice_perm ms).
Qed.

Lemma sortSlice_length ms : length (sortSlice ms) = length ms.
Proof. by rewrite (sortSlice_perm ms). Qed.

Lemma sortSlice_nil_inv ms : sortSlice ms = [] → ms = [].
Proof.
  intros E. apply length_zero_iff_nil. by rewrite <- sortSlice_length, E.
Qed.

(** *** The shape of a build that ends well *)

Lemma newMigrator_error filesystem strict m e :
  newMigrator filesystem strict = (m, Some e) → m = zeroMigrator.
Proof.
  unfold newMigrator.
  destruct (scanFiles _ _ _ _) as [?|[ups downs]]; [by intros [= <- _]|].
  destruct (checkSequence 0 (sortSlice ups)); [by intros [= <- _]|].
  destruct downs; [done|].
  case_bool_decide; [by intros [= <- _]|].
  destruct (checkSequence 0 _); [by intros [= <- _]|].
  destruct (checkPairs _ _); [by intros [= <- _]|done].
Qed.

Lemma newMigrator_ok filesystem strict m :
  newMigrator filesystem strict = (m, None) →
  let files := Glob_sql filesystem in
  VersionTable m = DefaultVersionTable
  ∧ Filesystem m = filesystem
  ∧ MigrateUp m = sortSlice (entry <$> up_files files)
  ∧ checkSequence 0 (MigrateUp m) = None
  ∧ (down_files files = [] ∧ MigrateDown m = []
     ∨ down_files files ≠ []
       ∧ MigrateDown m = sortSlice (entry <$> down_files files)
       ∧ length (MigrateUp m) = length (MigrateDown m)
       ∧ checkSequence 0 (MigrateDown m) = None
       ∧ checkPairs (MigrateUp m) (MigrateDown m) = None).
Proof.
  unfold newMigrator.
  destruct (scanFiles _ _ _ _) as [?|[ups downs]] eqn:Hscan; [done|].
  apply scanFiles_inr in Hscan as [-> ->]. simpl.
  destruct (checkSequence 0 _) eqn:Hseq; [done|].
  destruct (entry <$> down_files (Glob_sql filesystem)) as [|d ds] eqn:Hdown.
  { apply fmap_nil_inv in Hdown. intros [= <-]. simpl. eauto 10. }
  assert (down_files (Glob_sql filesystem) ≠ []) as Hne
    by (intros E; by rewrite E in Hdown).
  case_bool_decide as Hlen; [done|].
  destruct (checkSequence 0 (sortSlice (d :: ds))) eqn:Hseq'; [done|].
  destruct (checkPairs _ _) eqn:Hpairs; [done|].
  intros [= <-]. simpl. do 4 (split; [done|]). right. by split_and!.
Qed.

End SortFacts.

(** ** Base names *)

Lemma TrimSuffix_up f :
  is_script DirUp f = true → TrimSuffix f ".up.sql" = base_name f.
Proof.
  unfold is_script, base_name.
  destruct (FindStringSubmatch f) as [[[ds n] d]|] eqn:Hm; [|done].
  intros <-%bool_decide_eq_true.
  apply FindStringSubmatch_Some in Hm as (-> & _).
  change (ds +:+ "_" +:+ n +:+ "." +:+ direction_tag DirUp +:+ ".sql")
    with (ds +:+ "_" +:+ n +:+ ".up.sql").
  rewrite <- !app_assoc'. rewrite TrimSuffix_app. by rewrite !app_assoc'.
Qed.

Lemma TrimSuffix_down f :
  is_script DirDown f = true → TrimSuffix f ".down.sql" = base_name f.
Proof.
  unfold is_script, base_name.
  destruct (FindStringSubmatch f) as [[[ds n] d]|] eqn:Hm; [|done].
  intros <-%bool_decide_eq_true.
  apply FindStringSubmatch_Some in Hm as (-> & _).
  change (ds +:+ "_" +:+ n +:+ "." +:+ direction_tag DirDown +:+ ".sql")
    with (ds +:+ "_" +:+ n +:+ ".down.sql").
  rewrite <- !app_assoc'. rewrite TrimSuffix_app. by rewrite !app_assoc'.
Qed.

(** a name that follows the convention ends in [.sql] *)
Lemma follows_convention_sql f : follows_convention f → HasSuffix f ".sql" = true.
Proof.
  intros [[[ds n] d] Hm].
  apply FindStringSubmatch_Some in Hm as (-> & _).
  rewrite <- !app_assoc'. apply HasSuffix_app.
Qed.

(** ** What the catalog holds *)

Section Build.
Context `{SliceSorter}.

Lemma entry_versions (files : list string) : Version <$> (entry <$> files) = name_version <$> files.
Proof. by rewrite <- list_fmap_compose. Qed.

Lemma entry_filenames (files : list string) : Filename <$> (entry <$> files) = files.
Proof. rewrite <- list_fmap_compose. apply list_fmap_id. Qed.

Lemma is_script_follows d f : is_script d f = true → follows_convention f.
Proof.
  unfold is_script, follows_convention.
  by destruct (FindStringSubmatch f).
Qed.

Lemma is_script_up_not_down f : is_script DirUp f = true → is_script DirDown f ≠ true.
Proof.
  unfold is_script. destruct (FindStringSubmatch f) as [[[ds n] d]|]; [|done].
  by destruct d.
Qed.

Lemma up_files_all files :
  Forall (λ f, is_script DirUp f = true) files →
  up_files files = files ∧ down_files files = [].
Proof.
  induction 1 as [|f files Hf _ [IHu IHd]]; [done|].
  rewrite up_files_cons, down_files_cons, Hf, IHu, IHd.
  by destruct (is_script DirDown f) eqn:E; [apply is_script_up_not_down in Hf|].
Qed.

Lemma Latest_versions m : Latest m = default 0 (last (Version <$> MigrateUp m)).
Proof. unfold Latest. rewrite fmap_last. by destruct (last (MigrateUp m)). Qed.

Lemma last_seqZ (N : nat) : default 0 (last (seqZ 1 (Z.of_nat N))) = Z.of_nat N.
Proof.
  destruct N as [|n]; [done|].
  rewrite seqZ_S, last_snoc. simpl. lia.
Qed.

(** the catalog of a dense slice of versions *)
Lemma Latest_dense m (N : nat) :
  Version <$> MigrateUp m = seqZ 1 (Z.of_nat N) → Latest m = Z.of_nat N.
Proof. intros E. by rewrite Latest_versions, E, last_seqZ. Qed.

(** the up versions of a catalog that was built are 1..N, in order *)
Lemma newMigrator_dense filesystem strict m :
  newMigrator filesystem strict = (m, None) →
  Version <$> MigrateUp m = seqZ 1 (Z.of_nat (length (MigrateUp m))).
Proof.
  intros (_ & _ & _ & Hseq & _)%newMigrator_ok.
  by apply checkSequence_None in Hseq.
Qed.

Lemma Glob_sql_matching_only filesystem :
  Glob_sql (matching_only filesystem) = filter follows_convention (Glob_sql filesystem).
Proof.
  unfold Glob_sql, matching_only.
  induction filesystem as [|[name content] rest IH]; [done|].
  rewrite (filter_cons _ (name, content)). simpl.
  destruct (decide (follows_convention name)) as [Hn|Hn].
  - rewrite fmap_cons. simpl.
    rewrite !filter_cons_True by (done || by apply follows_convention_sql).
    f_equal. exact IH.
  - rewrite (filter_cons _ name). case_decide; [|done].
    by rewrite filter_cons_False.
Qed.

(** the build looks at the patch store through the scan alone; the
    store itself is only kept in the catalog *)
Lemma newMigrator_scan fs1 fs2 strict1 strict2 :
  scanFiles strict1 (Glob_sql fs1) [] [] = scanFiles strict2 (Glob_sql fs2) [] [] →
  let r1 := newMigrator fs1 strict1 in
  let r2 := newMigrator fs2 strict2 in
  r1.2 = r2.2
  ∧ VersionTable r1.1 = VersionTable r2.1
  ∧ MigrateUp r1.1 = MigrateUp r2.1
  ∧ MigrateDown r1.1 = MigrateDown r2.1.
Proof.
  intros E. unfold newMigrator. rewrite E.
  destruct (scanFiles strict2 _ _ _) as [?|[ups downs]]; [done|].
  destruct (checkSequence 0 (sortSlice ups)); [done|].
  destruct downs as [|d downs]; [done|].
  case_bool_decide; [done|].
  destruct (checkSequence 0 (sortSlice (d :: downs))); [done|].
  by destruct (checkPairs _ _).
Qed.

End Build.

(** ** The catalog: claims *)

(** C3. A patch set whose up versions are not exactly 1..N (a gap, a
    start other than 1, a duplicate) is refused by the strict and by the
    loose build: both return an error next to the zero catalog. *)
Theorem build_rejects_non_dense `{SliceSorter} (filesystem : FS) :
  ¬ (name_version <$> up_files (Glob_sql filesystem)
       ≡ₚ seqZ 1 (Z.of_nat (length (up_files (Glob_sql filesystem))))) →
  (∃ e, New filesystem = (zeroMigrator, Some e))
  ∧ (∃ e, NewLoose filesystem = (zeroMigrator, Some e)).
Proof.
  intros Hbad.
  assert (∀ strict, ∃ e, newMigrator filesystem strict = (zeroMigrator, Some e))
    as Hany; [|by split; apply Hany].
  intros strict.
  destruct (newMigrator filesystem strict) as [m [e|]] eqn:E.
  { apply newMigrator_error in E as ->. by exists e. }
  exfalso. apply Hbad.
  pose proof (newMigrator_dense _ _ _ E) as Hdense.
  apply newMigrator_ok in E as (_ & _ & Hup & _).
  rewrite Hup, sortSlice_length, length_fmap in Hdense.
  rewrite <- Hdense, <- entry_versions.
  by rewrite (sortSlice_perm (entry <$> _)).
Qed.

Lemma build_rejects_non_dense_witness :
  ¬ (name_version <$> up_files (Glob_sql gap_fs)
       ≡ₚ seqZ 1 (Z.of_nat (length (up_files (Glob_sql gap_fs)))))
  ∧ (∃ e, New gap_fs = (zeroMigrator, Some e))
  ∧ (∃ e, NewLoose gap_fs = (zeroMigrator, Some e)).
Proof.
  assert (¬ (name_version <$> up_files (Glob_sql gap_fs)
       ≡ₚ seqZ 1 (Z.of_nat (length (up_files (Glob_sql gap_fs)))))) as Hgap.
  { vm_compute. intros Hp.
    assert (4 ∈ [1; 2; 3]) as Hin by (rewrite <- Hp; repeat constructor).
    repeat (apply elem_of_cons in Hin as [Hin|Hin]; [discriminate Hin|]).
    by apply elem_of_nil in Hin. }
  split; [exact Hgap|]. exact (build_rejects_non_dense gap_fs Hgap).
Defined.

(** C5. An up-only patch set of N files whose versions are 1..N builds,
    strict or loose, and [Latest] of the catalog is N; [Latest] of a
    catalog without up entries is 0. *)
Theorem build_dense_up_only `{SliceSorter} (filesystem : FS) (strict : bool) (N : nat) :
  Forall (λ f, is_script DirUp f = true) (Glob_sql filesystem) →
  name_version <$> Glob_sql filesystem ≡ₚ seqZ 1 (Z.of_nat N) →
  Z.of_nat N ≤ maxInt →
  (∃ m, newMigrator filesystem strict = (m, None)
        ∧ Version <$> MigrateUp m = seqZ 1 (Z.of_nat N)
        ∧ Latest m = Z.of_nat N)
  ∧ (∀ m', MigrateUp m' = [] → Latest m' = 0).
Proof.
  intros Hup Hperm HN. split; [|by intros m'; unfold Latest; intros ->].
  destruct (up_files_all _ Hup) as [Hups Hdowns].
  assert (scanFiles strict (Glob_sql filesystem) [] [] =
          inr (entry <$> Glob_sql filesystem, [])) as Hscan.
  { rewrite scanFiles_ok, Hups, Hdowns; [done| |].
    - apply Forall_forall. intros f Hf _. unfold in_range.
      assert (name_version f ∈ seqZ 1 (Z.of_nat N)) as Hin
        by (rewrite <- Hperm; by apply list_elem_of_fmap_2).
      apply elem_of_seqZ in Hin. lia.
    - intros _. eapply Forall_impl; [exact Hup|]. intros f. apply is_script_follows. }
  assert (Version <$> sortSlice (entry <$> Glob_sql filesystem) = seqZ 1 (Z.of_nat N))
    as Hsorted by (apply sortSlice_dense; by rewrite entry_versions).
  assert (length (sortSlice (entry <$> Glob_sql filesystem)) = N) as Hlen.
  { rewrite <- (length_fmap Version), Hsorted, length_seqZ. lia. }
  eexists. unfold newMigrator. rewrite Hscan.
  rewrite (proj2 (checkSequence_None _ 0)) by (by rewrite Hlen).
  split; [done|]. split; [done|]. by apply Latest_dense.
Qed.

Lemma build_dense_up_only_witness :
  (∃ m, newMigrator two_step_fs true = (m, None)
        ∧ Version <$> MigrateUp m = seqZ 1 2
        ∧ Latest m = 2)
  ∧ (∀ m', MigrateUp m' = [] → Latest m' = 0).
Proof.
  apply (build_dense_up_only two_step_fs true 2).
  - by repeat constructor.
  - by vm_compute.
  - by vm_compute.
Defined.

(** C6. When the patch set has a down script and the build ends well,
    there are as many down scripts as up scripts, the down versions are
    1..N in order, and the entries of the same index have the same base
    name; so a build with a down script and a difference in count, a
    down version out of sequence or a difference between base names of
    one index does not end well. *)
Theorem build_pairs_up_and_down `{SliceSorter} (filesystem : FS) (strict : bool) (m : Migrator) :
  down_files (Glob_sql filesystem) ≠ [] →
  newMigrator filesystem strict = (m, None) →
  Filename <$> MigrateUp m ≡ₚ up_files (Glob_sql filesystem)
  ∧ Filename <$> MigrateDown m ≡ₚ down_files (Glob_sql filesystem)
  ∧ length (up_files (Glob_sql filesystem)) = length (down_files (Glob_sql filesystem))
  ∧ length (MigrateUp m) = length (MigrateDown m)
  ∧ Version <$> MigrateDown m = seqZ 1 (Z.of_nat (length (MigrateDown m)))
  ∧ ∀ i u d, MigrateUp m !! i = Some u → MigrateDown m !! i = Some d →
      base_name (Filename u) = base_name (Filename d).
Proof.
  intros Hdown (_ & _ & Hup & _ & [[? _]|(_ & Hdn & Hlen & Hseq & Hpairs)])%newMigrator_ok;
    [done|].
  assert (Filename <$> MigrateUp m ≡ₚ up_files (Glob_sql filesystem)) as Hpu
    by (by rewrite Hup, (sortSlice_perm (entry <$> _)), entry_filenames).
  assert (Filename <$> MigrateDown m ≡ₚ down_files (Glob_sql filesystem)) as Hpd
    by (by rewrite Hdn, (sortSlice_perm (entry <$> _)), entry_filenames).
  split_and!; try done.
  - by rewrite <- Hpu, <- Hpd, !length_fmap.
  - by apply checkSequence_None in Hseq.
  - intros i u d Hu Hd.
    rewrite <- TrimSuffix_up, <- TrimSuffix_down.
    + by apply (checkPairs_None _ _ i u d Hpairs).
    + assert (Filename d ∈ down_files (Glob_sql filesystem)) as Hin.
      { rewrite <- Hpd. apply list_elem_of_fmap_2. by eapply list_elem_of_lookup_2. }
      by apply list_elem_of_filter in Hin as [? _].
    + assert (Filename u ∈ up_files (Glob_sql filesystem)) as Hin.
      { rewrite <- Hpu. apply list_elem_of_fmap_2. by eapply list_elem_of_lookup_2. }
      by apply list_elem_of_filter in Hin as [? _].
Qed.

Lemma build_pairs_up_and_down_witness :
  ∃ m, newMigrator paired_fs true = (m, None)
       ∧ length (MigrateUp m) = length (MigrateDown m)
       ∧ Version <$> MigrateDown m = seqZ 1 (Z.of_nat (length (MigrateDown m)))
       ∧ ∀ i u d, MigrateUp m !! i = Some u → MigrateDown m !! i = Some d →
           base_name (Filename u) = base_name (Filename d).
Proof.
  pose (m := (newMigrator paired_fs true).1).
  assert (newMigrator paired_fs true = (m, None)) as Hm by (by vm_compute).
  assert (down_files (Glob_sql paired_fs) ≠ []) as Hd by (vm_compute; discriminate).
  destruct (build_pairs_up_and_down paired_fs true m Hd Hm)
    as (_ & _ & _ & Hlen & Hseq & Hbase).
  exists m. by split_and!.
Defined.

(** C7, as the claim has it, fails: the strict build over a listing with
    a file outside the convention can end in an error that names
    another file.  Here the first name follows the convention but its
    version does not fit [int]; the loop stops there, before it reaches
    [notes.sql]. *)
Lemma strict_error_names_other_file :
  "notes.sql" ∈ Glob_sql overflow_fs
  ∧ ¬ follows_convention "notes.sql"
  ∧ New overflow_fs
    = (zeroMigrator, Some (ErrBadFilename "99999999999999999999_a.up.sql"))
  ∧ New overflow_fs ≠ (zeroMigrator, Some (ErrInvalidFilename "notes.sql")).
Proof.
  split_and!.
  - vm_compute. repeat constructor.
  - intros [x Hx]. vm_compute in Hx. discriminate Hx.
  - by vm_compute.
  - vm_compute. discriminate.
Qed.

(** C7, amended. Over a listing with a file outside the convention the
    strict build fails; its error is the invalid-filename error of the
    first such file when the files listed before it have versions that
    fit [int].  The loose build is the build, strict included, of the
    patch set without the files outside the convention. *)
Theorem strict_rejects_loose_ignores `{SliceSorter} (filesystem : FS) :
  ¬ Forall follows_convention (Glob_sql filesystem) →
  (∃ e, New filesystem = (zeroMigrator, Some e))
  ∧ (∀ pre f post,
       Glob_sql filesystem = pre ++ f :: post →
       Forall (λ g, follows_convention g ∧ in_range g) pre →
       ¬ follows_convention f →
       New filesystem = (zeroMigrator, Some (ErrInvalidFilename f)))
  ∧ (NewLoose filesystem).2 = (New (matching_only filesystem)).2
  ∧ VersionTable (NewLoose filesystem).1 = VersionTable (New (matching_only filesystem)).1
  ∧ MigrateUp (NewLoose filesystem).1 = MigrateUp (New (matching_only filesystem)).1
  ∧ MigrateDown (NewLoose filesystem).1 = MigrateDown (New (matching_only filesystem)).1.
Proof.
  intros Hbad. split; [|split].
  - destruct (scanFiles_strict_fails _ [] [] Hbad) as [e He].
    exists e. unfold New, newMigrator. by rewrite He.
  - intros pre f post Hsplit Hpre Hf.
    unfold New, newMigrator. rewrite Hsplit, scanFiles_strict_stop; [done..|].
    unfold follows_convention in Hf.
    destruct (FindStringSubmatch f); [|done]. by destruct Hf.
  - apply newMigrator_scan.
    by rewrite Glob_sql_matching_only, <- scanFiles_loose.
Qed.

Lemma strict_rejects_loose_ignores_witness :
  New notes_fs = (zeroMigrator, Some (ErrInvalidFilename "notes.sql"))
  ∧ (NewLoose notes_fs).2 = None
  ∧ MigrateUp (NewLoose notes_fs).1 = MigrateUp (New (matching_only notes_fs)).1.
Proof.
  assert (¬ Forall follows_convention (Glob_sql notes_fs)) as Hbad.
  { intros Hall. apply Forall_cons in Hall as [_ Hall].
    apply Forall_cons in Hall as [[x Hx] _]. vm_compute in Hx. discriminate Hx. }
  destruct (strict_rejects_loose_ignores notes_fs Hbad) as (_ & Hfirst & Herr & _ & Hup & _).
  split_and!.
  - apply (Hfirst ["1_init.up.sql"] "notes.sql" []).
    + by vm_compute.
    + constructor; [|constructor]. split; [by eexists|]. by vm_compute.
    + intros [x Hx]. vm_compute in Hx. discriminate Hx.
  - rewrite Herr. by vm_compute.
  - exact Hup.
Defined.

(** ** The scenarios of the specification, run *)

Example two_step_build :
  New two_step_fs =
    ({| VersionTable := "schema_version"; Filesystem := two_step_fs;
        MigrateUp := [ {| Version := 1; Filename := "1_init.up.sql" |};
                       {| Version := 2; Filename := "2_seed.up.sql" |} ];
        MigrateDown := [] |}, None)
  ∧ Latest (New two_step_fs).1 = 2.
Proof. by vm_compute. Qed.

Example weird_build :
  New weird_fs = (zeroMigrator, Some (ErrUnexpectedSequence "5_weird.up.sql" 1)).
Proof. by vm_compute. Qed.

Example gap_build :
  New gap_fs = (zeroMigrator, Some (ErrUnexpectedSequence "4_d.up.sql" 3)).
Proof. by vm_compute. Qed.

Example notes_build :
  New notes_fs = (zeroMigrator, Some (ErrInvalidFilename "notes.sql"))
  ∧ NewLoose notes_fs =
      ({| VersionTable := "schema_version"; Filesystem := notes_fs;
          MigrateUp := [ {| Version := 1; Filename := "1_init.up.sql" |} ];
          MigrateDown := [] |}, None).
Proof. by vm_compute. Qed.

Example count_mismatch_build :
  New [("1_a.down.sql", "drop a"); ("1_a.up.sql", "make a"); ("2_b.up.sql", "more")]
  = (zeroMigrator, Some (ErrScriptCount 2 1)).
Proof. by vm_compute. Qed.

Example name_mismatch_build :
  New [("1_a.down.sql", "drop a"); ("1_b.up.sql", "make b")]
  = (zeroMigrator, Some (ErrUpDownMismatch "1_b.up.sql" "1_a.down.sql")).
Proof. by vm_compute. Qed.

(** ** The engine on the model of the server *)

Section PgFacts.
Context {U : Type} `{!ScriptEngine U}.
Implicit Types (m : Migrator) (db : PgConn U) (d : DB U).

Lemma version_of_set_table t row d : version_of t (set_table t row d) = row.
Proof. unfold version_of, set_table. simpl. by rewrite lookup_insert_eq. Qed.

Lemma set_table_twice t row row' d :
  set_table t row (set_table t row' d) = set_table t row d.
Proof. unfold set_table. simpl. by rewrite insert_insert_eq. Qed.

Lemma version_of_bootstrapped m d :
  version_of (VersionTable m) (bootstrapped m d) = Some (persisted_version m d).
Proof.
  unfold bootstrapped, persisted_version.
  destruct (version_of (VersionTable m) d) as [v|] eqn:E; simpl; [done|].
  apply version_of_set_table.
Qed.

Lemma bootstrapped_idem m d : bootstrapped m (bootstrapped m d) = bootstrapped m d.
Proof.
  unfold bootstrapped at 1. by rewrite version_of_bootstrapped.
Qed.

Lemma bootstrapped_user m d : user (bootstrapped m d) = user d.
Proof. unfold bootstrapped. by destruct (version_of _ d). Qed.

(** [initializeSchemaVersion] always ends well here, and sends the
    insert only when the row is missing *)
Lemma initializeSchemaVersion_pg m db :
  initializeSchemaVersion m db =
    (mkPgConn (bootstrapped m (committed db))
              (history db ++ bootstrap_events m (committed db)), None).
Proof.
  destruct db as [d h].
  unfold initializeSchemaVersion, BeginFunc, initializeSchemaVersion_fn,
    tx_bind, tx_ret, exec, queryInt, bootstrapped, bootstrap_events, version_of.
  simpl.
  destruct (tables d !! VersionTable m) as [[v|]|] eqn:E; simpl;
    rewrite ?E, ?lookup_insert_eq; simpl; rewrite ?E, ?lookup_insert_eq; simpl;
    rewrite <- ?(assoc_L (++)); simpl; try done.
  by rewrite set_table_twice.
Qed.

(** [Current]: the bootstrap, then the read *)
Lemma Current_pg m db :
  Current m db =
    (mkPgConn (bootstrapped m (committed db))
              (history db ++ bootstrap_events m (committed db) ++ read_events m),
     (persisted_version m (committed db), None)).
Proof.
  unfold Current. rewrite initializeSchemaVersion_pg.
  generalize (bootstrap_events m (committed db)). intros evs.
  unfold BeginFunc, queryInt, read_events. simpl.
  pose proof (version_of_bootstrapped m (committed db)) as Hv.
  unfold version_of in Hv.
  destruct (tables (bootstrapped m (committed db)) !! VersionTable m)
    as [[v|]|]; simplify_eq/=.
  by rewrite <- !(assoc_L (++)).
Qed.

(** [Apply], when the patch file is there, by the state of the row *)
Lemma Apply_pg m db before after filename sql :
  ReadFile (Filesystem m) filename = Some sql →
  Apply m db before after filename =
    match tables (committed db) !! VersionTable m with
    | Some (Some current) =>
        if bool_decide (current = before) then
          match run_script sql (user (committed db)) with
          | inr u =>
              (mkPgConn {| tables := <[VersionTable m := Some after]> (tables (committed db));
                           user := u |}
                        (history db ++ apply_events m after sql ++ [EvCommit]), None)
          | inl e =>
              (mkPgConn (committed db)
                        (history db ++ apply_events m after sql ++ [EvRollback]),
               Some (ErrWrap (WhileApplying filename) (ErrPg e)))
          end
        else
          (mkPgConn (committed db) (history db ++ take 2 (apply_events m after sql) ++ [EvRollback]),
           Some (ErrWrap (WhileApplying filename) (ErrExpectedVersion before current)))
    | other =>
        (mkPgConn (committed db) (history db ++ take 2 (apply_events m after sql) ++ [EvRollback]),
         Some (ErrWrap (WhileApplying filename)
                 (ErrWrap WhileReadingCurrentVersion
                    (ErrPg (match other with
                            | None => PgUndefinedTable (VersionTable m)
                            | _ => PgNoRows
                            end)))))
    end.
Proof.
  intros Hread. destruct db as [d h].
  unfold Apply. rewrite Hread.
  unfold BeginFunc, Apply_fn, tx_bind, tx_wrap, tx_fail, exec, queryInt, apply_events.
  simpl.
  destruct (tables d !! VersionTable m) as [[v|]|] eqn:E; simpl;
    rewrite <- ?(assoc_L (++)); simpl; try done.
  case_bool_decide as Hv; case_bool_decide as Hv'; try done; simpl;
    rewrite ?E; simpl; rewrite <- ?(assoc_L (++)); simpl; try done.
  destruct (run_script sql (user d)); simpl; by rewrite <- ?(assoc_L (++)).
Qed.

End PgFacts.

(** ** The walk of [Up] *)

Lemma pending_all cur ms :
  Forall (λ v, cur < Version v) ms → pending cur ms = ms.
Proof.
  induction 1 as [|v ms Hv _ IH]; [done|].
  unfold pending in *. by rewrite filter_cons_True, IH.
Qed.

Lemma pending_none cur ms :
  Forall (λ v, Version v ≤ cur) ms → pending cur ms = [].
Proof.
  induction 1 as [|v ms Hv _ IH]; [done|].
  unfold pending in *. rewrite filter_cons_False by lia. done.
Qed.

(** a dense run of versions is in strict order *)
Lemma dense_sorted ms : ∀ a,
  Version <$> ms = seqZ a (Z.of_nat (length ms)) → StronglySorted version_lt ms.
Proof.
  induction ms as [|v ms IH]; intros a Hd; [constructor|].
  simpl in Hd. rewrite seqZ_cons in Hd by lia.
  replace (Z.pred (Z.of_nat (S (length ms)))) with (Z.of_nat (length ms)) in Hd by lia.
  injection Hd as Hv Hd. constructor; [by eapply IH|].
  apply Forall_forall. intros w Hw. unfold version_lt.
  assert (Version w ∈ seqZ (Z.succ a) (Z.of_nat (length ms))) as Hin
    by (rewrite <- Hd; by apply list_elem_of_fmap_2).
  apply elem_of_seqZ in Hin. lia.
Qed.

(** in a dense catalog, what is pending from version [k] on is what
    follows the first [k] entries *)
Lemma pending_dense ms : ∀ a k,
  Version <$> ms = seqZ a (Z.of_nat (length ms)) →
  pending k ms = drop (Z.to_nat (k - (a - 1))) ms.
Proof.
  induction ms as [|v ms IH]; intros a k Hd; [by rewrite drop_nil|].
  simpl in Hd. rewrite seqZ_cons in Hd by lia.
  replace (Z.pred (Z.of_nat (S (length ms)))) with (Z.of_nat (length ms)) in Hd by lia.
  injection Hd as Hv Hd. specialize (IH _ k Hd).
  replace (Z.succ a - 1) with a in IH by lia.
  unfold pending in *. destruct (decide (k < a)) as [Hk|Hk].
  - rewrite filter_cons_True by lia. rewrite IH.
    replace (Z.to_nat (k - a)) with 0%nat by lia.
    by replace (Z.to_nat (k - (a - 1))) with 0%nat by lia.
  - rewrite filter_cons_False by lia. rewrite IH.
    by replace (Z.to_nat (k - (a - 1))) with (S (Z.to_nat (k - a))) by lia.
Qed.

(** the last version of what is pending in a dense catalog *)
Lemma last_pending_dense ms k :
  Version <$> ms = seqZ 1 (Z.of_nat (length ms)) →
  k < Z.of_nat (length ms) → ms ≠ [] →
  default k (last (Version <$> pending k ms)) = Z.of_nat (length ms).
Proof.
  intros Hd Hk Hne. rewrite (pending_dense _ 1) by done.
  assert (0 < length ms)%nat by (destruct ms; [done | simpl; lia]).
  remember (Z.to_nat (k - (1 - 1))) as n eqn:Hn.
  rewrite fmap_drop, Hd.
  replace (Z.of_nat (length ms))
    with (Z.of_nat n + Z.of_nat (length ms - n)) at 1 by lia.
  rewrite seqZ_app by lia.
  rewrite drop_app_length' by (rewrite length_seqZ; lia).
  destruct (length ms - n)%nat as [|j] eqn:Hj; [lia|].
  rewrite seqZ_S, last_snoc. simpl. lia.
Qed.

(** and nothing is pending from its last version on *)
Lemma pending_behind ms k :
  Version <$> ms = seqZ 1 (Z.of_nat (length ms)) →
  Z.of_nat (length ms) ≤ k →
  pending k ms = [].
Proof.
  intros Hd Hk. apply pending_none, Forall_forall. intros v Hv.
  assert (Version v ∈ seqZ 1 (Z.of_nat (length ms))) as Hin
    by (rewrite <- Hd; by apply list_elem_of_fmap_2).
  apply elem_of_seqZ in Hin. lia.
Qed.

Section UpFacts.
Context {U : Type} `{!ScriptEngine U}.
Implicit Types (m : Migrator) (db : PgConn U) (d : DB U).

Lemma version_of_Some t d v :
  version_of t d = Some v ↔ tables d !! t = Some (Some v).
Proof.
  unfold version_of. destruct (tables d !! t) as [[w|]|]; simpl; naive_solver.
Qed.

(** nothing is sent for entries that are not ahead of [current] *)
Lemma Up_loop_skip m db current ms :
  Forall (λ v, Version v ≤ current) ms → Up_loop m db current ms = (db, None).
Proof.
  induction 1 as [|v ms Hv _ IH]; [done|]. simpl.
  by rewrite (proj2 (Z.geb_le _ _)) by done.
Qed.

Lemma scripts_run_app (h1 h2 : list Event) :
  scripts_run (h1 ++ h2) = scripts_run h1 ++ scripts_run h2.
Proof. apply omap_app. Qed.

Lemma scripts_run_bootstrap m d : scripts_run (bootstrap_events m d) = [].
Proof. unfold bootstrap_events. by destruct (version_of _ d). Qed.

(** The loop, entered with the persisted version in [current], over
    entries in strict order: it sends the scripts of the pending
    entries, in order, up to the first failure, and nothing else. *)
Lemma Up_loop_pg m ms : ∀ db current db' r,
  StronglySorted version_lt ms →
  version_of (VersionTable m) (committed db) = Some current →
  Up_loop m db current ms = (db', r) →
  ∃ sent texts,
    sent `prefix_of` pending current ms
    ∧ scripts_of m sent texts
    ∧ scripts_run (history db') = scripts_run (history db) ++ texts
    ∧ (r = None →
         sent = pending current ms
         ∧ version_of (VersionTable m) (committed db')
           = Some (default current (last (Version <$> pending current ms)))).
Proof.
  induction ms as [|v ms IH]; intros db current db' r Hsorted Hcur.
  { simpl. intros [= <- <-]. exists [], []. rewrite app_nil_r.
    split_and!; try done. constructor. }
  apply StronglySorted_inv in Hsorted as [Hsorted Hv]. simpl.
  destruct (current >=? Version v) eqn:Hskip.
  { apply Z.geb_le in Hskip. intros Hloop.
    destruct (IH _ _ _ _ Hsorted Hcur Hloop) as (sent & texts & ? & ? & ? & ?).
    exists sent, texts. unfold pending in *.
    by rewrite filter_cons_False by lia. }
  rewrite Z.geb_leb in Hskip. apply Z.leb_gt in Hskip.
  assert (Forall (λ w, Version v < Version w) ms) as Hv' by done.
  assert (pending current (v :: ms) = v :: ms) as Hpend.
  { apply pending_all. constructor; [done|].
    eapply Forall_impl; [exact Hv'|]. simpl. lia. }
  rewrite Hpend.
  destruct (ReadFile (Filesystem m) (Filename v)) as [sql|] eqn:Hread; cycle 1.
  { unfold Apply. rewrite Hread. intros [= <- <-].
    exists [], []. rewrite app_nil_r. split_and!; try done.
    - apply prefix_nil.
    - constructor. }
  rewrite (Apply_pg _ _ _ _ _ _ Hread).
  rewrite (proj1 (version_of_Some _ _ _) Hcur), bool_decide_eq_true_2 by done.
  destruct (run_script sql (user (committed db))) as [e|u].
  { intros [= <- <-]. exists [v], [sql]. split_and!; try done.
    - apply prefix_cons, prefix_nil.
    - by repeat constructor.
    - simpl. by rewrite !scripts_run_app. }
  intros Hloop. apply IH in Hloop as (sent & texts & Hpre & Htexts & Hrun & Hend);
    [|done|apply version_of_Some; simpl; apply lookup_insert_eq].
  rewrite (pending_all _ _ Hv') in Hpre, Hend.
  exists (v :: sent), (sql :: texts). split_and!.
  - by apply prefix_cons.
  - by constructor.
  - rewrite Hrun. simpl. rewrite !scripts_run_app. simpl.
    by rewrite <- !(assoc_L (++)).
  - intros Hr. destruct (Hend Hr) as [-> Hfin]. split; [done|].
    rewrite Hfin. f_equal. destruct ms as [|w ms]; [reflexivity|].
    rewrite !fmap_cons, last_cons_cons, last_cons.
    by destruct (last (Version <$> ms)).
Qed.

(** [Up]: the bootstrap and the read, then the loop *)
Lemma Up_pg m db :
  Up m db =
    Up_loop m
      (mkPgConn (bootstrapped m (committed db))
                (history db ++ bootstrap_events m (committed db) ++ read_events m))
      (persisted_version m (committed db)) (MigrateUp m).
Proof. unfold Up. by rewrite Current_pg. Qed.

End UpFacts.

(** ** The engine: claims *)

Section EngineClaims.
Context {U : Type} `{!ScriptEngine U}.
Implicit Types (m : Migrator) (db : PgConn U).

(** C9. [Current] bootstraps the version table and spares an existing
    row: where the table does not exist it creates the table, inserts
    the row of version 0 and returns 0; where the table holds a row it
    sends no insert, leaves the database as it is and returns the
    version of the row. *)
Theorem Current_bootstraps m db :
  (tables (committed db) !! VersionTable m = None →
     ∃ db', Current m db = (db', (0, None))
       ∧ committed db' = set_table (VersionTable m) (Some 0) (committed db)
       ∧ history db' = history db
           ++ [EvBegin; EvExec (SqlCreateVersionTable (VersionTable m));
               EvQuery (SqlCountRows (VersionTable m));
               EvExec (SqlInsertFirstRow (VersionTable m)); EvCommit]
           ++ read_events m)
  ∧ (∀ v, tables (committed db) !! VersionTable m = Some (Some v) →
     ∃ db', Current m db = (db', (v, None))
       ∧ committed db' = committed db
       ∧ history db' = history db
           ++ [EvBegin; EvExec (SqlCreateVersionTable (VersionTable m));
               EvQuery (SqlCountRows (VersionTable m)); EvCommit]
           ++ read_events m).
Proof.
  split; [intros Ht | intros v Ht]; eexists; rewrite Current_pg;
    unfold persisted_version, bootstrapped, bootstrap_events, version_of;
    rewrite Ht; simpl; done.
Qed.

(** C4. [Apply] reads the persisted version first.  When it is not
    [before], the transaction is rolled back after that read: the
    error tells the two versions, no statement that writes was sent and
    the database is as it was.  When it is [before], the update to
    [after] is the next statement, the script runs on the row so
    updated, and the two are committed together or not at all. *)
Theorem Apply_compare_and_set m db before after filename sql current :
  ReadFile (Filesystem m) filename = Some sql →
  version_of (VersionTable m) (committed db) = Some current →
  (current ≠ before →
     Apply m db before after filename =
       (mkPgConn (committed db)
          (history db ++ [EvBegin; EvQuery (SqlSelectVersion (VersionTable m)); EvRollback]),
        Some (ErrWrap (WhileApplying filename) (ErrExpectedVersion before current))))
  ∧ (current = before →
     Apply m db before after filename =
       match run_script sql (user (committed db)) with
       | inr u =>
           (mkPgConn {| tables := <[VersionTable m := Some after]> (tables (committed db));
                        user := u |}
              (history db ++ apply_events m after sql ++ [EvCommit]), None)
       | inl e =>
           (mkPgConn (committed db)
              (history db ++ apply_events m after sql ++ [EvRollback]),
            Some (ErrWrap (WhileApplying filename) (ErrPg e)))
       end).
Proof.
  intros Hread Hcur%version_of_Some.
  rewrite (Apply_pg _ _ _ _ _ _ Hread), Hcur.
  split; intros Hc.
  - by rewrite bool_decide_eq_false_2.
  - by rewrite bool_decide_eq_true_2.
Qed.

(** C1. When the script fails inside [Apply], the call returns the
    failure, the transaction is rolled back, the database is as it was
    before the call, and [Current] still returns [before]. *)
Theorem Apply_atomic m db before after filename sql e :
  ReadFile (Filesystem m) filename = Some sql →
  version_of (VersionTable m) (committed db) = Some before →
  run_script sql (user (committed db)) = inl e →
  ∃ db',
    Apply m db before after filename
      = (db', Some (ErrWrap (WhileApplying filename) (ErrPg e)))
    ∧ committed db' = committed db
    ∧ last (history db') = Some EvRollback
    ∧ (Current m db').2 = (before, None)
    ∧ committed (Current m db').1 = committed db.
Proof.
  intros Hread Hcur Hfail.
  pose proof (Apply_pg m db before after filename sql Hread) as Happly.
  rewrite (proj1 (version_of_Some _ _ _) Hcur), bool_decide_eq_true_2, Hfail
    in Happly by done.
  eexists. split; [exact Happly|].
  rewrite Current_pg. simpl.
  unfold persisted_version, bootstrapped. rewrite Hcur. simpl.
  split_and!; try done.
  by rewrite last_app.
Qed.

(** C8, amended. [Apply] reads the patch file before it begins the
    transaction: when the read fails, it returns the error and the
    connection as it was, with no transaction begun; when the read
    succeeds and the persisted version is [before], the one
    transaction sends the read of the version, the update to [after]
    and then the script, in this order. *)
Theorem Apply_reads_then_transacts m db before after filename :
  (ReadFile (Filesystem m) filename = None →
     Apply m db before after filename
       = (db, Some (ErrWrap WhileReadingPatchFile (ErrNotExist filename))))
  ∧ (∀ sql, ReadFile (Filesystem m) filename = Some sql →
       version_of (VersionTable m) (committed db) = Some before →
       ∃ db' r fin,
         Apply m db before after filename = (db', r)
         ∧ history db' = history db
             ++ [EvBegin; EvQuery (SqlSelectVersion (VersionTable m));
                 EvExec (SqlUpdateVersion (VersionTable m) after);
                 EvExec (SqlScript sql); fin]
         ∧ (fin = EvCommit ∨ fin = EvRollback)).
Proof.
  split.
  - intros Hread. unfold Apply. by rewrite Hread.
  - intros sql Hread Hcur.
    rewrite (Apply_pg _ _ _ _ _ _ Hread).
    rewrite (proj1 (version_of_Some _ _ _) Hcur), bool_decide_eq_true_2 by done.
    destruct (run_script sql (user (committed db))); do 3 eexists; eauto.
Qed.

End EngineClaims.

Lemma Current_bootstraps_witness :
  (∃ db', Current two_step_catalog fresh_conn = (db', (0, None))
     ∧ committed db' = set_table "schema_version" (Some 0) fresh_db)
  ∧ (∃ db', Current two_step_catalog step_one_conn = (db', (1, None))
     ∧ committed db' = committed step_one_conn).
Proof.
  destruct (Current_bootstraps two_step_catalog fresh_conn) as [Hfresh _].
  destruct (Current_bootstraps two_step_catalog step_one_conn) as [_ Hrow].
  split.
  - destruct Hfresh as (db' & ? & ? & _); [by vm_compute|]. by exists db'.
  - destruct (Hrow 1) as (db' & ? & ? & _); [by vm_compute|]. by exists db'.
Defined.

Lemma Apply_compare_and_set_witness :
  Apply two_step_catalog step_one_conn 0 1 "1_init.up.sql"
    = (mkPgConn (committed step_one_conn)
         [EvBegin; EvQuery (SqlSelectVersion "schema_version"); EvRollback],
       Some (ErrWrap (WhileApplying "1_init.up.sql") (ErrExpectedVersion 0 1)))
  ∧ (Apply two_step_catalog step_one_conn 1 2 "2_seed.up.sql").2 = None.
Proof.
  split.
  - refine (proj1 (Apply_compare_and_set two_step_catalog step_one_conn 0 1
                     "1_init.up.sql" "create table t(x int);" 1 _ _) _);
      [by vm_compute | by vm_compute | discriminate].
  - rewrite (proj2 (Apply_compare_and_set two_step_catalog step_one_conn 1 2
                      "2_seed.up.sql" "insert into t values (1);" 1
                      ltac:(by vm_compute) ltac:(by vm_compute)) eq_refl).
    by vm_compute.
Defined.

Lemma Apply_atomic_witness :
  ∃ db',
    Apply failing_catalog step_one_conn 1 2 "2_seed.up.sql"
      = (db', Some (ErrWrap (WhileApplying "2_seed.up.sql")
                      (ErrPg (PgScriptFailed "!insert"))))
    ∧ committed db' = committed step_one_conn
    ∧ (Current failing_catalog db').2 = (1, None).
Proof.
  destruct (Apply_atomic failing_catalog step_one_conn 1 2 "2_seed.up.sql"
              "!insert" (PgScriptFailed "!insert"))
    as (db' & ? & ? & _ & ? & _); [by vm_compute..|].
  by exists db'.
Defined.

(** C8, as the claim has it, fails: the patch file is read before any
    transaction is begun.  With the file gone from the store, [Apply]
    returns the read error and has sent nothing to the server: no
    transaction was opened, no version was updated, nothing was rolled
    back. *)
Lemma read_failure_opens_no_transaction :
  ReadFile (Filesystem orphan_catalog) "1_init.up.sql" = None
  ∧ Apply orphan_catalog zero_conn 0 1 "1_init.up.sql"
    = (zero_conn, Some (ErrWrap WhileReadingPatchFile (ErrNotExist "1_init.up.sql")))
  ∧ history (Apply orphan_catalog zero_conn 0 1 "1_init.up.sql").1 = []
  ∧ EvRollback ∉ history (Apply orphan_catalog zero_conn 0 1 "1_init.up.sql").1.
Proof.
  split_and!; try by vm_compute.
  vm_compute. apply not_elem_of_nil.
Qed.

Lemma Apply_reads_then_transacts_witness :
  Apply orphan_catalog zero_conn 0 1 "1_init.up.sql"
    = (zero_conn, Some (ErrWrap WhileReadingPatchFile (ErrNotExist "1_init.up.sql")))
  ∧ ∃ db' r fin,
      Apply two_step_catalog zero_conn 0 1 "1_init.up.sql" = (db', r)
      ∧ history db' = history zero_conn
          ++ [EvBegin; EvQuery (SqlSelectVersion "schema_version");
              EvExec (SqlUpdateVersion "schema_version" 1);
              EvExec (SqlScript "create table t(x int);"); fin]
      ∧ (fin = EvCommit ∨ fin = EvRollback).
Proof.
  split.
  - apply (Apply_reads_then_transacts orphan_catalog zero_conn 0 1 "1_init.up.sql").
    by vm_compute.
  - apply (proj2 (Apply_reads_then_transacts two_step_catalog zero_conn 0 1
                    "1_init.up.sql")); by vm_compute.
Defined.

(** ** The upgrade walk: claims *)

Section UpClaims.
Context {U : Type} `{!ScriptEngine U}.
Implicit Types (m : Migrator) (db : PgConn U).

(** after a bootstrap there is nothing left to bootstrap *)
Lemma bootstrapped_row m (d : DB U) v :
  version_of (VersionTable m) d = Some v →
  bootstrapped m d = d ∧ persisted_version m d = v.
Proof. intros Hv. unfold bootstrapped, persisted_version. by rewrite Hv. Qed.

(** where a walk that ends well leaves the version *)
Lemma Up_final_version m db db1 :
  Version <$> MigrateUp m = seqZ 1 (Z.of_nat (length (MigrateUp m))) →
  Up m db = (db1, None) →
  version_of (VersionTable m) (committed db1)
    = Some (if decide (MigrateUp m = []) then persisted_version m (committed db)
            else persisted_version m (committed db) `max` Latest m).
Proof.
  intros Hd Hup. rewrite Up_pg in Hup.
  apply Up_loop_pg in Hup as (sent & texts & _ & _ & _ & Hend);
    [|by eapply dense_sorted|apply version_of_bootstrapped].
  destruct (Hend eq_refl) as [_ ->]. f_equal.
  rewrite (Latest_dense m (length (MigrateUp m))) by done.
  set (c := persisted_version m (committed db)).
  case_decide as Hne; [by rewrite Hne|].
  destruct (decide (c < Z.of_nat (length (MigrateUp m)))) as [Hc|Hc].
  - rewrite last_pending_dense by done. lia.
  - rewrite pending_behind by (done || lia). simpl. lia.
Qed.

(** C2, amended. For a dense catalog: a second [Up] after one that
    ended well sends no script and leaves the database as it is;
    [Current] equals [Latest] after the first one when the database
    was at a version from 0 to [Latest] (a database beyond [Latest]
    stays where it is); and [Up] on a database at version [k] sends
    the scripts of the entries after the [k]-th only, in order, up to
    the first failure, and all of them when it ends well. *)
Theorem Up_idempotent_resumable m db db1 :
  Version <$> MigrateUp m = seqZ 1 (Z.of_nat (length (MigrateUp m))) →
  Up m db = (db1, None) →
  (∃ db2, Up m db1 = (db2, None)
          ∧ committed db2 = committed db1
          ∧ scripts_run (history db2) = scripts_run (history db1))
  ∧ (0 ≤ persisted_version m (committed db) ≤ Latest m →
     (Current m db1).2 = (Latest m, None))
  ∧ (∀ (k : nat) dbk dbk' r,
       version_of (VersionTable m) (committed dbk) = Some (Z.of_nat k) →
       (k ≤ length (MigrateUp m))%nat →
       Up m dbk = (dbk', r) →
       ∃ sent texts,
         sent `prefix_of` drop k (MigrateUp m)
         ∧ scripts_of m sent texts
         ∧ scripts_run (history dbk') = scripts_run (history dbk) ++ texts
         ∧ (r = None →
              sent = drop k (MigrateUp m)
              ∧ (Current m dbk').2 = (Latest m, None))).
Proof.
  intros Hd Hup.
  pose proof (Latest_dense m (length (MigrateUp m)) Hd) as HN.
  pose proof (Up_final_version m db db1 Hd Hup) as Hfin.
  split_and!.
  - destruct (bootstrapped_row m _ _ Hfin) as [Hb Hp].
    eexists. rewrite Up_pg, Hb, Hp. split_and!.
    + apply Up_loop_skip, Forall_forall. intros v Hv.
      assert (Version v ∈ seqZ 1 (Z.of_nat (length (MigrateUp m)))) as Hin
        by (rewrite <- Hd; by apply list_elem_of_fmap_2).
      apply elem_of_seqZ in Hin.
      case_decide as Hne; [rewrite Hne in Hv; by apply elem_of_nil in Hv | lia].
    + done.
    + cbn [history]. rewrite !scripts_run_app, scripts_run_bootstrap.
      simpl. by rewrite app_nil_r.
  - intros Hc. rewrite Current_pg. simpl.
    destruct (bootstrapped_row m _ _ Hfin) as [_ ->]. f_equal.
    case_decide as Hne; [rewrite Hne in HN; simpl in HN|]; lia.
  - intros k dbk dbk' r Hk Hlen Hupk. rewrite Up_pg in Hupk.
    destruct (bootstrapped_row m _ _ Hk) as [Hb Hp]. rewrite Hb, Hp in Hupk.
    apply Up_loop_pg in Hupk as (sent & texts & Hpre & Htexts & Hrun & Hend);
      [|by eapply dense_sorted|done].
    assert (pending (Z.of_nat k) (MigrateUp m) = drop k (MigrateUp m)) as Hpend.
    { rewrite (pending_dense _ 1) by done. f_equal. lia. }
    exists sent, texts. split_and!; try done.
    + by rewrite <- Hpend.
    + rewrite Hrun. cbn [history].
      rewrite !scripts_run_app, scripts_run_bootstrap.
      simpl. by rewrite app_nil_r.
    + intros Hr. destruct (Hend Hr) as [-> Hv]. split; [done|].
      rewrite Current_pg. simpl.
      destruct (bootstrapped_row m _ _ Hv) as [_ ->]. f_equal.
      destruct (decide (Z.of_nat k < Z.of_nat (length (MigrateUp m)))) as [Hc|Hc].
      * rewrite last_pending_dense; [lia | done | done |].
        intros Hnil. rewrite Hnil in Hc. simpl in Hc. lia.
      * rewrite pending_behind by (done || lia). simpl. lia.
Qed.

End UpClaims.

(** C2, as the claim has it, fails: on a database that is beyond the
    catalog, [Up] ends well without sending a script, and [Current] is
    not [Latest] afterwards. *)
Lemma Up_leaves_newer_database :
  (Up two_step_catalog ahead_conn).2 = None
  ∧ scripts_run (history (Up two_step_catalog ahead_conn).1) = []
  ∧ (Current two_step_catalog (Up two_step_catalog ahead_conn).1).2 = (5, None)
  ∧ Latest two_step_catalog = 2.
Proof. by vm_compute. Qed.

Lemma Up_idempotent_resumable_witness :
  (∃ db2, Up two_step_catalog (Up two_step_catalog fresh_conn).1 = (db2, None)
          ∧ committed db2 = committed (Up two_step_catalog fresh_conn).1
          ∧ scripts_run (history db2)
            = scripts_run (history (Up two_step_catalog fresh_conn).1))
  ∧ (Current two_step_catalog (Up two_step_catalog fresh_conn).1).2
    = (Latest two_step_catalog, None).
Proof.
  assert (Version <$> MigrateUp two_step_catalog
          = seqZ 1 (Z.of_nat (length (MigrateUp two_step_catalog)))) as Hd
    by (vm_compute; reflexivity).
  assert (Up two_step_catalog fresh_conn
          = ((Up two_step_catalog fresh_conn).1, None)) as Hup
    by (vm_compute; reflexivity).
  destruct (Up_idempotent_resumable two_step_catalog fresh_conn _ Hd Hup)
    as (Hagain & Hlatest & _).
  split; [exact Hagain|].
  apply Hlatest. clear. vm_compute. split; discriminate.
Defined.

(** ** Initialization and a second session: claims *)

(** C10, amended. When the insert of the row fails, for whatever reason,
    [initializeSchemaVersion] does not take the table for initialized:
    the transaction is rolled back and the failure is returned, wrapped
    with the name of the table; [Current] returns it as well.  This holds
    for every implementation of the connection. *)
Theorem initialization_returns_failed_insert
    {C T : Type} `{!PgTx T} `{!Conn C T}
    (m : Migrator) (db : C) (tx tx1 tx2 tx3 : T) (count : Z) (e : Error) :
  Begin db = inr tx →
  Exec (SqlCreateVersionTable (VersionTable m)) tx = (tx1, None) →
  QueryRowScan (SqlCountRows (VersionTable m)) tx1 = (tx2, inr count) →
  count ≤ 0 →
  Exec (SqlInsertFirstRow (VersionTable m)) tx2 = (tx3, Some e) →
  initializeSchemaVersion m db
    = (Rollback tx3, Some (ErrWrap (WhileCreatingVersionTable (VersionTable m)) e))
  ∧ Current m db
    = (Rollback tx3, (0, Some (ErrWrap (WhileCreatingVersionTable (VersionTable m)) e))).
Proof.
  intros Hbegin Hcreate Hcount Hzero Hinsert.
  assert (initializeSchemaVersion m db
          = (Rollback tx3, Some (ErrWrap (WhileCreatingVersionTable (VersionTable m)) e)))
    as Hinit.
  { unfold initializeSchemaVersion, BeginFunc, initializeSchemaVersion_fn,
      tx_bind, exec, queryInt.
    rewrite Hbegin, Hcreate, Hcount.
    replace (count >? 0) with false by (symmetry; rewrite Z.gtb_ltb; by apply Z.ltb_ge).
    by rewrite Hinsert. }
  split; [done|]. unfold Current. by rewrite Hinit.
Qed.

(** C10, as the claim has it, fails: in a first run that loses the race
    for the first row, the insert is refused because the row of the other
    session is there, and the initialization returns that refusal as an
    error. *)
Lemma lost_race_is_an_error :
  version_of DefaultVersionTable
    (committed (rc_conn (initializeSchemaVersion two_step_catalog racing_conn).1)) = Some 0
  ∧ (initializeSchemaVersion two_step_catalog racing_conn).2
    = Some (ErrWrap (WhileCreatingVersionTable "schema_version")
              (ErrPg (PgUniqueViolation "schema_version")))
  ∧ (initializeSchemaVersion two_step_catalog racing_conn).2 ≠ None.
Proof. split_and!; [by vm_compute | by vm_compute | vm_compute; discriminate]. Qed.

Lemma initialization_returns_failed_insert_witness :
  (initializeSchemaVersion two_step_catalog racing_conn).2
    = Some (ErrWrap (WhileCreatingVersionTable "schema_version")
              (ErrPg (PgUniqueViolation "schema_version")))
  ∧ (Current two_step_catalog racing_conn).2
    = (0, Some (ErrWrap (WhileCreatingVersionTable "schema_version")
                  (ErrPg (PgUniqueViolation "schema_version")))).
Proof.
  edestruct (initialization_returns_failed_insert two_step_catalog racing_conn)
    as [Hinit Hcur].
  - reflexivity.
  - reflexivity.
  - reflexivity.
  - lia.
  - reflexivity.
  - rewrite Hinit, Hcur. by split.
Defined.

(** * Further properties of the catalog *)

(** X1. A name put together from a non-empty run of digits, an underscore, a
    name without newline, a direction tag and the extension is matched,
    and the match gives back the parts it was made of. *)
Theorem filename_roundtrip (digits name : string) (d : Direction) :
  digits ≠ "" → all_digits digits = true → no_newline name = true →
  let filename := digits +:+ "_" +:+ name +:+ "." +:+ direction_tag d +:+ ".sql" in
  FindStringSubmatch filename = Some (digits, name, d)
  ∧ name_version filename = digits_value 0 digits
  ∧ base_name filename = digits +:+ "_" +:+ name
  ∧ TrimSuffix filename ("." +:+ direction_tag d +:+ ".sql") = digits +:+ "_" +:+ name.
Proof.
  intros Hne Hds Hn filename.
  assert (FindStringSubmatch filename = Some (digits, name, d)) as Hm
    by (by apply FindStringSubmatch_Some).
  unfold name_version, base_name. rewrite Hm. split_and!; try done.
  unfold filename. rewrite <- !app_assoc'.
  rewrite (app_assoc' _ (direction_tag d) ".sql"), (app_assoc' _ "." _).
  apply TrimSuffix_app.
Qed.

Lemma filename_roundtrip_witness :
  FindStringSubmatch "007_add.users.down.sql" = Some ("007", "add.users", DirDown)
  ∧ name_version "007_add.users.down.sql" = 7.
Proof.
  destruct (filename_roundtrip "007" "add.users" DirDown) as (Hm & Hv & _);
    [discriminate | reflexivity | reflexivity |].
  split; [exact Hm | exact Hv].
Defined.

Section BuildExtras.
Context `{SliceSorter}.

(** X2. Every way the build fails returns the zero Migrator next to the
    error; a build that ends well returns a catalog over the patch store
    it was given, with the default version table. *)
Theorem build_error_or_catalog (filesystem : FS) (strict : bool) :
  match (newMigrator filesystem strict).2 with
  | Some _ => (newMigrator filesystem strict).1 = zeroMigrator
  | None =>
      VersionTable (newMigrator filesystem strict).1 = DefaultVersionTable
      ∧ Filesystem (newMigrator filesystem strict).1 = filesystem
  end.
Proof.
  destruct (newMigrator filesystem strict) as [m [e|]] eqn:E; simpl.
  - by eapply newMigrator_error.
  - by apply newMigrator_ok in E as (? & ? & _).
Qed.

Lemma ReadFile_listed (filesystem : FS) (name : string) :
  name ∈ filesystem.*1 → is_Some (ReadFile filesystem name).
Proof.
  induction filesystem as [|[n c] rest IH]; simpl.
  - by intros ?%elem_of_nil.
  - intros [->|Hin]%elem_of_cons.
    + by rewrite String.eqb_refl.
    + destruct (String.eqb n name); [done | by apply IH].
Qed.


(** X4. A listed script whose version does not fit [int] makes the build
    fail, strict or loose; the loose build, which passes over the names
    outside the convention, fails with the bad-filename error of the first
    such script. *)
Theorem build_rejects_overflow (filesystem : FS) (pre post : list string) (f : string) :
  Glob_sql filesystem = pre ++ f :: post →
  Forall (λ g, follows_convention g → in_range g) pre →
  follows_convention f → ¬ in_range f →
  NewLoose filesystem = (zeroMigrator, Some (ErrBadFilename f))
  ∧ ∃ e, New filesystem = (zeroMigrator, Some e).
Proof.
  intros Hsplit Hpre Hf Hrange.
  assert (∀ strict ups downs,
            (strict = true → Forall follows_convention pre) →
            scanFiles strict (pre ++ f :: post) ups downs = inl (ErrBadFilename f))
    as Hscan.
  { intros strict. clear Hsplit. induction pre as [|g pre IH]; intros ups downs Hstrict.
    - simpl app. rewrite scanFiles_cons. destruct Hf as [[[ds n] d] ->].
      unfold in_range in Hrange. by rewrite (proj2 (Z.leb_gt _ _)) by lia.
    - apply Forall_cons in Hpre as [Hg Hpre]. specialize (IH Hpre).
      assert (strict = true → follows_convention g ∧ Forall follows_convention pre)
        as Hstrict' by (intros ?; by apply Forall_cons, Hstrict).
      rewrite <- app_comm_cons, scanFiles_cons.
      destruct (FindStringSubmatch g) as [[[ds n] d]|] eqn:Hm.
      + rewrite (proj2 (Z.leb_le _ _)) by (apply Hg; by eexists).
        destruct d; apply IH; intros ?; by apply Hstrict'.
      + destruct strict; [|by apply IH].
        destruct Hstrict' as [[? Hx] _]; [done|]. unfold follows_convention in *.
        by rewrite Hm in Hx. }
  split.
  - unfold NewLoose, newMigrator. by rewrite Hsplit, Hscan.
  - destruct (decide (Forall follows_convention pre)) as [Hall|Hbad].
    + eexists. unfold New, newMigrator. by rewrite Hsplit, Hscan.
    + destruct (scanFiles_strict_fails (Glob_sql filesystem) [] []) as [e He].
      { rewrite Hsplit. intros Hall. apply Hbad.
        by apply Forall_app in Hall as [? _]. }
      exists e. unfold New, newMigrator. by rewrite He.
Qed.

End BuildExtras.


Lemma build_rejects_overflow_witness :
  NewLoose overflow_fs
    = (zeroMigrator, Some (ErrBadFilename "99999999999999999999_a.up.sql"))
  ∧ ∃ e, New overflow_fs = (zeroMigrator, Some e).
Proof.
  apply (build_rejects_overflow overflow_fs [] ["notes.sql"]).
  - by vm_compute.
  - constructor.
  - by eexists.
  - vm_compute. intros Hle. by apply Hle.
Defined.

(** ** The build and the order of equal versions *)

Lemma version_le_trans : Transitive version_le.
Proof. intros a b c. unfold version_le. lia. Qed.

Lemma NoDup_fmap_eq {A B} (f : A → B) (l : list A) x y :
  NoDup (f <$> l) → x ∈ l → y ∈ l → f x = f y → x = y.
Proof.
  induction l as [|a l IH]; simpl.
  { by intros _ ?%elem_of_nil. }
  intros [Ha Hl]%NoDup_cons [->|Hx]%elem_of_cons [->|Hy]%elem_of_cons Hxy.
  - done.
  - destruct Ha. rewrite Hxy. by apply list_elem_of_fmap_2.
  - destruct Ha. rewrite <- Hxy. by apply list_elem_of_fmap_2.
  - by apply IH.
Qed.

(** two lawful sorts agree on a slice without equal versions *)
Lemma sortSlice_agree (S1 S2 : SliceSorter) (ms : list Migration) :
  NoDup (Version <$> ms) → @sortSlice S1 ms = @sortSlice S2 ms.
Proof.
  intros Hnd. pose proof version_le_trans.
  apply (Sorted_unique_strong version_le).
  - intros x1 x2 Hx1 Hx2 H12 H21.
    rewrite (@sortSlice_perm S1 ms) in Hx1. rewrite (@sortSlice_perm S2 ms) in Hx2.
    apply (NoDup_fmap_eq Version ms); [done..|]. unfold version_le in *. lia.
  - apply sortSlice_sorted.
  - apply sortSlice_sorted.
  - by rewrite (@sortSlice_perm S1), (@sortSlice_perm S2).
Qed.

Lemma checkSequence_NoDup (S : SliceSorter) (ms : list Migration) :
  checkSequence 0 (@sortSlice S ms) = None → NoDup (Version <$> ms).
Proof.
  intros Hseq%checkSequence_None.
  rewrite <- (@sortSlice_perm S ms), Hseq. apply NoDup_seqZ.
Qed.

(** X5. The Go sort is free to order entries of one version as it likes; a
    build that ends well does not depend on that choice: whatever lawful
    sort is used, the same catalog is built. *)
Theorem build_independent_of_sort (S1 S2 : SliceSorter)
    (filesystem : FS) (strict : bool) (m : Migrator) :
  @newMigrator S1 filesystem strict = (m, None) →
  @newMigrator S2 filesystem strict = (m, None).
Proof.
  unfold newMigrator.
  destruct (scanFiles strict (Glob_sql filesystem) [] []) as [?|[ups downs]]; [done|].
  destruct (checkSequence 0 (@sortSlice S1 ups)) eqn:Hup; [done|].
  rewrite <- (sortSlice_agree S1 S2 ups) by exact (checkSequence_NoDup S1 _ Hup).
  rewrite Hup. destruct downs as [|d downs]; [done|].
  rewrite !(@sortSlice_length S1), !(@sortSlice_length S2).
  case_bool_decide; [done|].
  destruct (checkSequence 0 (@sortSlice S1 (d :: downs))) eqn:Hdown; [done|].
  rewrite <- (sortSlice_agree S1 S2 (d :: downs))
    by exact (checkSequence_NoDup S1 _ Hdown).
  by rewrite Hdown.
Qed.

Lemma build_independent_of_sort_witness :
  @newMigrator reversing_sorter paired_fs true
  = ((@newMigrator stable_sorter paired_fs true).1, None).
Proof.
  apply (build_independent_of_sort stable_sorter reversing_sorter).
  by vm_compute.
Defined.

(** ** The errors of the build *)

Lemma scanFiles_inl strict files : ∀ ups downs e,
  scanFiles strict files ups downs = inl e →
  (∃ f, e = ErrInvalidFilename f ∧ strict = true ∧ f ∈ files ∧ ¬ follows_convention f)
  ∨ (∃ f, e = ErrBadFilename f ∧ f ∈ files ∧ follows_convention f ∧ ¬ in_range f).
Proof.
  induction files as [|f files IH]; intros ups downs e; [done|].
  rewrite scanFiles_cons.
  assert (∀ ups downs, scanFiles strict files ups downs = inl e →
    (∃ g, e = ErrInvalidFilename g ∧ strict = true ∧ g ∈ f :: files
          ∧ ¬ follows_convention g)
    ∨ (∃ g, e = ErrBadFilename g ∧ g ∈ f :: files ∧ follows_convention g
            ∧ ¬ in_range g)) as IH'.
  { intros ups' downs' [(g & ? & ? & ? & ?)|(g & ? & ? & ? & ?)]%IH;
      [left | right]; exists g; split_and!; try done; by apply elem_of_cons; right. }
  destruct (FindStringSubmatch f) as [[[ds n] d]|] eqn:Hm.
  - destruct (name_version f <=? maxInt) eqn:Hr.
    + destruct d; apply IH'.
    + intros [= <-]. right. exists f. split_and!; try done.
      * apply elem_of_cons; by left.
      * by eexists.
      * unfold in_range. apply Z.leb_gt in Hr. lia.
  - destruct strict; [|apply IH'].
    intros [= <-]. left. exists f. split_and!; try done.
    + apply elem_of_cons; by left.
    + intros [x Hx]. congruence.
Qed.

Lemma checkSequence_Some ms : ∀ i e,
  checkSequence i ms = Some e →
  ∃ v pos, v ∈ ms ∧ e = ErrUnexpectedSequence (Filename v) pos
           ∧ i + 1 ≤ pos ∧ Version v ≠ pos.
Proof.
  induction ms as [|v ms IH]; intros i e; simpl; [done|].
  case_bool_decide as Hv.
  - intros [= <-]. exists v, (i + 1).
    split_and!; [apply elem_of_cons; by left | done | lia | done].
  - intros (w & pos & ? & ? & ? & ?)%IH. exists w, pos.
    split_and!; [apply elem_of_cons; by right | done | lia | done].
Qed.

Lemma checkPairs_Some ups : ∀ downs e,
  checkPairs ups downs = Some e →
  ∃ u d, u ∈ ups ∧ d ∈ downs ∧ e = ErrUpDownMismatch (Filename u) (Filename d)
         ∧ TrimSuffix (Filename u) ".up.sql" ≠ TrimSuffix (Filename d) ".down.sql".
Proof.
  induction ups as [|u ups IH]; intros [|d downs] e; simpl; try done.
  case_bool_decide as Hud.
  - intros [= <-]. exists u, d. split_and!; try done; apply elem_of_cons; by left.
  - intros (u' & d' & ? & ? & ? & ?)%IH. exists u', d'.
    split_and!; try done; apply elem_of_cons; by right.
Qed.

Section BuildErrors.
Context `{SliceSorter}.

Lemma sorted_entry_inv (d : Direction) (files : list string) (v : Migration) :
  v ∈ sortSlice (entry <$> filter (λ f, is_script d f = true) files) →
  v = entry (Filename v) ∧ Filename v ∈ files ∧ is_script d (Filename v) = true.
Proof.
  rewrite (sortSlice_perm (entry <$> _)).
  intros (f & -> & Hf)%list_elem_of_fmap.
  by apply list_elem_of_filter in Hf as [? ?].
Qed.

(** X6. Every error of the build is true of the listing: the file it names
    is listed and is at fault in the way the error says, the counts it
    gives are the numbers of up and of down scripts, and the invalid
    filename error is a matter of the strict build only. *)
Theorem build_errors_justified (filesystem : FS) (strict : bool) (e : Error) :
  (newMigrator filesystem strict).2 = Some e →
  justified strict (Glob_sql filesystem) e.
Proof.
  unfold newMigrator.
  destruct (scanFiles strict (Glob_sql filesystem) [] []) as [e'|[ups downs]] eqn:Hscan.
  { simpl. intros [= <-].
    by apply scanFiles_inl in Hscan as [(f & -> & ?)|(f & -> & ?)]. }
  apply scanFiles_inr in Hscan as [-> ->]. simpl.
  destruct (checkSequence 0 (sortSlice _)) as [e'|] eqn:Hup.
  { simpl. intros [= <-].
    apply checkSequence_Some in Hup as (v & pos & Hv & -> & Hpos & Hne).
    apply (sorted_entry_inv DirUp) in Hv as (Hv & Hin & Hs). simpl.
    split_and!; [done | by eapply is_script_follows | lia |].
    by rewrite Hv in Hne. }
  destruct (entry <$> down_files (Glob_sql filesystem)) as [|d ds] eqn:Hdowns;
    [done|].
  rewrite <- Hdowns. case_bool_decide as Hlen.
  { simpl. intros [= <-]. simpl.
    rewrite !sortSlice_length, !length_fmap in Hlen |- *.
    split_and!; try done; [lia|].
    apply (f_equal length) in Hdowns. rewrite length_fmap in Hdowns.
    simpl in Hdowns. lia. }
  destruct (checkSequence 0 (sortSlice (entry <$> down_files _))) as [e'|] eqn:Hdn.
  { simpl. intros [= <-].
    apply checkSequence_Some in Hdn as (v & pos & Hv & -> & Hpos & Hne).
    apply (sorted_entry_inv DirDown) in Hv as (Hv & Hin & Hs). simpl.
    split_and!; [done | by eapply is_script_follows | lia |].
    by rewrite Hv in Hne. }
  destruct (checkPairs _ _) as [e'|] eqn:Hpairs; [|done].
  simpl. intros [= <-].
  apply checkPairs_Some in Hpairs as (u & w & Hu & Hw & -> & Hne).
  apply (sorted_entry_inv DirUp) in Hu as (_ & Hu & Hsu).
  apply (sorted_entry_inv DirDown) in Hw as (_ & Hw & Hsw).
  rewrite TrimSuffix_up, TrimSuffix_down in Hne by done. simpl.
  split_and!; [by apply list_elem_of_filter | by apply list_elem_of_filter | done].
Qed.

(** X7. With up scripts that are dense and a different number of down
    scripts, the error is the one of the counts, whatever the versions
    and names of the down scripts are: the counts are compared first. *)
Theorem build_compares_counts_first (filesystem : FS) (strict : bool) :
  Forall (λ f, follows_convention f → in_range f) (Glob_sql filesystem) →
  (strict = true → Forall follows_convention (Glob_sql filesystem)) →
  name_version <$> up_files (Glob_sql filesystem)
    ≡ₚ seqZ 1 (Z.of_nat (length (up_files (Glob_sql filesystem)))) →
  down_files (Glob_sql filesystem) ≠ [] →
  length (up_files (Glob_sql filesystem)) ≠ length (down_files (Glob_sql filesystem)) →
  newMigrator filesystem strict
  = (zeroMigrator,
     Some (ErrScriptCount (Z.of_nat (length (up_files (Glob_sql filesystem))))
                          (Z.of_nat (length (down_files (Glob_sql filesystem)))))).
Proof.
  intros Hrange Hstrict Hdense Hdown Hlen.
  unfold newMigrator. rewrite scanFiles_ok by done. simpl.
  assert (Version <$> sortSlice (entry <$> up_files (Glob_sql filesystem))
          = seqZ 1 (Z.of_nat (length (up_files (Glob_sql filesystem))))) as Hsorted
    by (apply sortSlice_dense; by rewrite entry_versions).
  rewrite (proj2 (checkSequence_None _ 0))
    by (by rewrite sortSlice_length, length_fmap).
  destruct (entry <$> down_files (Glob_sql filesystem)) as [|d ds] eqn:Hdowns.
  { by apply fmap_nil_inv in Hdowns. }
  rewrite <- Hdowns, !sortSlice_length, !length_fmap.
  by rewrite bool_decide_eq_true_2.
Qed.

End BuildErrors.

Lemma build_errors_justified_witness :
  justified true (Glob_sql gap_fs) (ErrUnexpectedSequence "4_d.up.sql" 3).
Proof.
  apply (build_errors_justified gap_fs true). by vm_compute.
Defined.

Lemma build_compares_counts_first_witness :
  New lonely_down_fs = (zeroMigrator, Some (ErrScriptCount 1 2)).
Proof.
  apply (build_compares_counts_first lonely_down_fs true).
  - repeat constructor; intros _; by vm_compute.
  - intros _. repeat constructor; by eexists.
  - by vm_compute.
  - vm_compute. discriminate.
  - vm_compute. discriminate.
Defined.

(** * Further properties of the engine *)

Section EngineExtras.
Context {U : Type} `{!ScriptEngine U}.
Implicit Types (m : Migrator) (db : PgConn U) (d : DB U).

Lemma bootstrapped_tables m d t' :
  t' ≠ VersionTable m → tables (bootstrapped m d) !! t' = tables d !! t'.
Proof.
  intros Hne. unfold bootstrapped. destruct (version_of _ d); [done|].
  simpl. by rewrite lookup_insert_ne.
Qed.

Lemma persisted_version_bootstrapped m d :
  persisted_version m (bootstrapped m d) = persisted_version m d.
Proof.
  unfold persisted_version at 1. by rewrite version_of_bootstrapped.
Qed.

(** X9. [Current] keeps to its own table and is stable: it leaves the rest
    of the database and the other version tables as they are, and a
    second call returns the same version, sends no insert and changes
    nothing at all. *)
Theorem Current_is_stable m db :
  user (committed (Current m db).1) = user (committed db)
  ∧ (∀ t', t' ≠ VersionTable m →
       tables (committed (Current m db).1) !! t' = tables (committed db) !! t')
  ∧ (Current m (Current m db).1).2 = (Current m db).2
  ∧ committed (Current m (Current m db).1).1 = committed (Current m db).1
  ∧ history (Current m (Current m db).1).1
    = history (Current m db).1
      ++ [EvBegin; EvExec (SqlCreateVersionTable (VersionTable m));
          EvQuery (SqlCountRows (VersionTable m)); EvCommit]
      ++ read_events m.
Proof.
  rewrite !Current_pg. cbn [fst snd committed history].
  split_and!.
  - apply bootstrapped_user.
  - intros t'. apply bootstrapped_tables.
  - by rewrite persisted_version_bootstrapped.
  - apply bootstrapped_idem.
  - unfold bootstrap_events at 2. by rewrite version_of_bootstrapped.
Qed.

(** The loop of [Up], entered with the persisted version, over entries
    in strict order: the pending entries split into those applied and
    committed and the rest; the version row is that of the last entry
    applied; the other tables are untouched; and the rest is empty unless
    [Apply] failed on its first entry. *)
Lemma Up_loop_outcome m ms : ∀ db current db' r,
  StronglySorted version_lt ms →
  version_of (VersionTable m) (committed db) = Some current →
  Up_loop m db current ms = (db', r) →
  ∃ applied rest,
    pending current ms = applied ++ rest
    ∧ version_of (VersionTable m) (committed db')
      = Some (default current (last (Version <$> applied)))
    ∧ (∀ t', t' ≠ VersionTable m →
         tables (committed db') !! t' = tables (committed db) !! t')
    ∧ match r with
      | None => rest = []
      | Some e =>
          ∃ v rest' e', rest = v :: rest'
            ∧ e = ErrWrap (FailedToApply (Filename v)) e'
            ∧ apply_failure m v e'
      end.
Proof.
  induction ms as [|v ms IH]; intros db current db' r Hsorted Hcur.
  { simpl. intros [= <- <-]. by exists [], []. }
  apply StronglySorted_inv in Hsorted as [Hsorted Hv]. simpl.
  destruct (current >=? Version v) eqn:Hskip.
  { apply Z.geb_le in Hskip. intros Hloop.
    destruct (IH _ _ _ _ Hsorted Hcur Hloop) as (applied & rest & ? & ? & ? & ?).
    exists applied, rest. unfold pending in *.
    by rewrite filter_cons_False by lia. }
  rewrite Z.geb_leb in Hskip. apply Z.leb_gt in Hskip.
  assert (Forall (λ w, Version v < Version w) ms) as Hv' by done.
  assert (pending current (v :: ms) = v :: ms) as Hpend.
  { apply pending_all. constructor; [done|].
    eapply Forall_impl; [exact Hv'|]. simpl. lia. }
  rewrite Hpend.
  destruct (ReadFile (Filesystem m) (Filename v)) as [sql|] eqn:Hread; cycle 1.
  { unfold Apply. rewrite Hread. intros [= <- <-].
    exists [], (v :: ms). split_and!; try done.
    exists v, ms. eexists. split_and!; try done. by left. }
  rewrite (Apply_pg _ _ _ _ _ _ Hread).
  rewrite (proj1 (version_of_Some _ _ _) Hcur), bool_decide_eq_true_2 by done.
  destruct (run_script sql (user (committed db))) as [e|u] eqn:Hrun.
  { intros [= <- <-]. exists [], (v :: ms). split_and!; try done.
    exists v, ms. eexists. split_and!; try done.
    right. by exists sql, (user (committed db)), e. }
  intros Hloop.
  apply IH in Hloop as (applied & rest & Hsplit & Hver & Htabs & Hr);
    [|done|apply version_of_Some; simpl; apply lookup_insert_eq].
  rewrite (pending_all _ _ Hv') in Hsplit.
  exists (v :: applied), rest. split_and!.
  - by rewrite Hsplit.
  - rewrite Hver. f_equal. destruct applied as [|w applied]; [reflexivity|].
    rewrite !fmap_cons, last_cons_cons, last_cons.
    by destruct (last (Version <$> applied)).
  - intros t' Ht'. rewrite Htabs by done. simpl. by rewrite lookup_insert_ne.
  - done.
Qed.

(** what was applied is ahead of where the walk started *)
Lemma applied_ahead current ms applied rest :
  pending current ms = applied ++ rest →
  current ≤ default current (last (Version <$> applied)).
Proof.
  intros Hsplit. destruct (last (Version <$> applied)) as [x|] eqn:Hlast; [|done].
  simpl. rewrite fmap_last in Hlast.
  destruct (last applied) as [w|] eqn:Hw; [|done]. injection Hlast as <-.
  assert (w ∈ pending current ms) as Hin.
  { rewrite Hsplit. apply elem_of_app. left. by eapply last_Some_elem_of. }
  apply list_elem_of_filter in Hin as [? _]. lia.
Qed.

(** X10. [Up] stops at the first entry on which [Apply] fails.  The entries
    pending before it are committed, the version row is that of the last
    of them (which [Current] then returns), and the error names the file
    of the failing entry and tells why it failed: the file could not be
    read, or the server rejected the script. *)
Theorem Up_stops_at_first_failure m db db' e :
  Version <$> MigrateUp m = seqZ 1 (Z.of_nat (length (MigrateUp m))) →
  Up m db = (db', Some e) →
  ∃ applied v rest e',
    pending (persisted_version m (committed db)) (MigrateUp m) = applied ++ v :: rest
    ∧ e = ErrWrap (FailedToApply (Filename v)) e'
    ∧ apply_failure m v e'
    ∧ (Current m db').2
      = (default (persisted_version m (committed db)) (last (Version <$> applied)), None).
Proof.
  intros Hd Hup. rewrite Up_pg in Hup.
  apply Up_loop_outcome in Hup as (applied & rest & Hsplit & Hver & _ & Hr);
    [|by eapply dense_sorted|apply version_of_bootstrapped].
  destruct Hr as (v & rest' & e' & -> & -> & Hfail).
  exists applied, v, rest', e'. split_and!; try done.
  rewrite Current_pg. simpl. unfold persisted_version at 1. by rewrite Hver.
Qed.

(** X11. [Up] never lowers the persisted version and keeps to its own
    version table: whether it ends well or not, the version row is there
    afterwards with a version that is not below the one before, and the
    version tables of other names are as they were. *)
Theorem Up_never_lowers_version m db :
  Version <$> MigrateUp m = seqZ 1 (Z.of_nat (length (MigrateUp m))) →
  (∃ version, version_of (VersionTable m) (committed (Up m db).1) = Some version
              ∧ persisted_version m (committed db) ≤ version)
  ∧ (∀ t', t' ≠ VersionTable m →
       tables (committed (Up m db).1) !! t' = tables (committed db) !! t').
Proof.
  intros Hd. destruct (Up m db) as [db' r] eqn:Hup. rewrite Up_pg in Hup.
  apply Up_loop_outcome in Hup as (applied & rest & Hsplit & Hver & Htabs & _);
    [|by eapply dense_sorted|apply version_of_bootstrapped].
  simpl. split.
  - eexists. split; [exact Hver|]. by eapply applied_ahead.
  - intros t' Ht'. rewrite Htabs by done. simpl. by apply bootstrapped_tables.
Qed.

End EngineExtras.

Lemma Up_stops_at_first_failure_witness :
  ∃ applied v rest e',
    pending (persisted_version failing_catalog (committed fresh_conn))
      (MigrateUp failing_catalog) = applied ++ v :: rest
    ∧ ErrWrap (FailedToApply "2_seed.up.sql")
        (ErrWrap (WhileApplying "2_seed.up.sql") (ErrPg (PgScriptFailed "!insert")))
      = ErrWrap (FailedToApply (Filename v)) e'
    ∧ apply_failure failing_catalog v e'
    ∧ (Current failing_catalog (Up failing_catalog fresh_conn).1).2
      = (default (persisted_version failing_catalog (committed fresh_conn))
           (last (Version <$> applied)), None).
Proof.
  apply (Up_stops_at_first_failure failing_catalog fresh_conn).
  - vm_compute; reflexivity.
  - vm_compute; reflexivity.
Defined.

Lemma Up_never_lowers_version_witness :
  ∃ version,
    version_of (VersionTable failing_catalog)
      (committed (Up failing_catalog step_one_conn).1) = Some version
    ∧ persisted_version failing_catalog (committed step_one_conn) ≤ version.
Proof.
  apply (Up_never_lowers_version failing_catalog step_one_conn).
  vm_compute; reflexivity.
Defined.

(** * From the patch store to the migrated database *)

Lemma ReadFile_Some (filesystem : FS) (name text : string) :
  ReadFile filesystem name = Some text → (name, text) ∈ filesystem.
Proof.
  induction filesystem as [|[n c] rest IH]; simpl; [done|].
  destruct (String.eqb_spec n name) as [->|_].
  - intros [= ->]. apply elem_of_cons; by left.
  - intros ?%IH. apply elem_of_cons; by right.
Qed.

Section MigrateExtras.
Context `{SliceSorter} {U : Type} `{!ScriptEngine U}.
Implicit Types (db : PgConn U).

(** the build of a dense up-only patch set *)
Lemma newMigrator_up_only (filesystem : FS) (strict : bool) (N : nat) :
  Forall (λ f, is_script DirUp f = true) (Glob_sql filesystem) →
  name_version <$> Glob_sql filesystem ≡ₚ seqZ 1 (Z.of_nat N) →
  Z.of_nat N ≤ maxInt →
  ∃ ups, newMigrator filesystem strict
         = ({| VersionTable := DefaultVersionTable; Filesystem := filesystem;
               MigrateUp := ups; MigrateDown := [] |}, None)
         ∧ Version <$> ups = seqZ 1 (Z.of_nat N)
         ∧ length ups = N
         ∧ Forall (λ v, Filename v ∈ Glob_sql filesystem) ups.
Proof.
  intros Hup Hperm HN.
  destruct (up_files_all _ Hup) as [Hups Hdowns].
  assert (scanFiles strict (Glob_sql filesystem) [] [] =
          inr (entry <$> Glob_sql filesystem, [])) as Hscan.
  { rewrite scanFiles_ok, Hups, Hdowns; [done| |].
    - apply Forall_forall. intros f Hf _. unfold in_range.
      assert (name_version f ∈ seqZ 1 (Z.of_nat N)) as Hin
        by (rewrite <- Hperm; by apply list_elem_of_fmap_2).
      apply elem_of_seqZ in Hin. lia.
    - intros _. eapply Forall_impl; [exact Hup|]. intros f. apply is_script_follows. }
  assert (Version <$> sortSlice (entry <$> Glob_sql filesystem) = seqZ 1 (Z.of_nat N))
    as Hsorted by (apply sortSlice_dense; by rewrite entry_versions).
  assert (length (sortSlice (entry <$> Glob_sql filesystem)) = N) as Hlen.
  { rewrite <- (length_fmap Version), Hsorted, length_seqZ. lia. }
  eexists. unfold newMigrator. rewrite Hscan.
  rewrite (proj2 (checkSequence_None _ 0)) by (by rewrite Hlen).
  split_and!; try done.
  apply Forall_forall. intros v Hv.
  rewrite (sortSlice_perm (entry <$> _)) in Hv.
  by apply list_elem_of_fmap in Hv as (f & -> & Hf).
Qed.

(** X12. [Migrate], from the patch store to the database: over a dense
    up-only patch set whose scripts the server accepts, on a database
    without the version table, it ends well, has sent the N scripts, each
    once and in the order of the versions, and has left the version N. *)
Theorem Migrate_fresh_database (filesystem : FS) (db : PgConn U) (N : nat) :
  Forall (λ f, is_script DirUp f = true) (Glob_sql filesystem) →
  name_version <$> Glob_sql filesystem ≡ₚ seqZ 1 (Z.of_nat N) →
  Z.of_nat N ≤ maxInt →
  scripts_always_run filesystem →
  tables (committed db) !! DefaultVersionTable = None →
  ∃ db' texts,
    Migrate filesystem db = (db', None)
    ∧ version_of DefaultVersionTable (committed db') = Some (Z.of_nat N)
    ∧ scripts_of (New filesystem).1 (MigrateUp (New filesystem).1) texts
    ∧ Version <$> MigrateUp (New filesystem).1 = seqZ 1 (Z.of_nat N)
    ∧ scripts_run (history db') = scripts_run (history db) ++ texts.
Proof.
  intros Hup Hperm HN Hrun Hfresh.
  destruct (newMigrator_up_only filesystem true N Hup Hperm HN)
    as (ups & Hnew & Hdense & Hlen & Hlisted).
  unfold Migrate, New. rewrite Hnew. cbn [fst snd].
  set (m := {| VersionTable := DefaultVersionTable; Filesystem := filesystem;
               MigrateUp := ups; MigrateDown := [] |}).
  assert (StronglySorted version_lt ups) as Hsorted
    by (apply (dense_sorted _ 1); by rewrite Hlen).
  assert (persisted_version m (committed db) = 0) as Hzero.
  { unfold persisted_version, version_of. simpl. by rewrite Hfresh. }
  assert (pending 0 ups = ups) as Hpend.
  { rewrite (pending_dense _ 1) by (by rewrite Hlen). apply drop_0. }
  destruct (Up m db) as [db' r] eqn:HUp. rewrite Up_pg, Hzero in HUp.
  cbn [MigrateUp m] in HUp.
  pose proof HUp as Hout.
  apply Up_loop_outcome in Hout as (applied & rest & Hsplit & _ & _ & Hr);
    [|done|rewrite <- Hzero; apply version_of_bootstrapped].
  assert (r = None) as ->.
  { destruct r as [e|]; [exfalso|done].
    destruct Hr as (v & rest' & e' & -> & _ & Hfail).
    assert (v ∈ ups) as Hv.
    { rewrite <- Hpend, Hsplit. apply elem_of_app. right. apply elem_of_cons. by left. }
    destruct Hfail as [[Hread _]|(sql & u & pe & Hread & Hscript & _)]; simpl in Hread.
    - rewrite Forall_forall in Hlisted. specialize (Hlisted v Hv).
      unfold Glob_sql in Hlisted. apply list_elem_of_filter in Hlisted as [_ Hl].
      apply ReadFile_listed in Hl as [x Hx]. congruence.
    - apply ReadFile_Some in Hread. destruct (Hrun _ _ u Hread) as [u' Hu'].
      congruence. }
  apply Up_loop_pg in HUp as (sent & texts & _ & Htexts & Hhist & Hend);
    [|done|rewrite <- Hzero; apply version_of_bootstrapped].
  destruct (Hend eq_refl) as [-> Hver]. rewrite Hpend in Htexts, Hver.
  change (VersionTable m) with DefaultVersionTable in Hver.
  exists db', texts. split_and!; try done.
  - by rewrite Hver, Hdense, last_seqZ.
  - rewrite Hhist. cbn [history].
    rewrite !scripts_run_app, scripts_run_bootstrap. simpl. by rewrite app_nil_r.
Qed.

End MigrateExtras.

Lemma Migrate_fresh_database_witness :
  ∃ db' texts,
    Migrate two_step_fs fresh_conn = (db', None)
    ∧ version_of DefaultVersionTable (committed db') = Some 2
    ∧ scripts_of (New two_step_fs).1 (MigrateUp (New two_step_fs).1) texts
    ∧ Version <$> MigrateUp (New two_step_fs).1 = seqZ 1 2
    ∧ scripts_run (history db') = scripts_run (history fresh_conn) ++ texts.
Proof.
  apply (Migrate_fresh_database two_step_fs fresh_conn 2).
  - by repeat constructor.
  - by vm_compute.
  - by vm_compute.
  - intros name text u Hin.
    repeat (apply elem_of_cons in Hin as [[= -> ->]|Hin]; [by eexists|]).
    by apply elem_of_nil in Hin.
  - reflexivity.
Defined.

(** * A connection that fails *)

(** X13. When the connection cannot begin a transaction, every operation
    gives the error of [Begin] back, wrapped as it wraps its own errors,
    and the connection as [Begin] left it: [Current] returns version 0
    with the error, [Up] applies nothing, and [Apply], whose patch file
    was read, sends nothing.  This holds for every implementation of the
    connection. *)
Theorem begin_failure_surfaces {C T : Type} `{!PgTx T} `{!Conn C T}
    (m : Migrator) (db db' : C) (e : Error) :
  Begin db = inl (db', e) →
  initializeSchemaVersion m db
    = (db', Some (ErrWrap (WhileCreatingVersionTable (VersionTable m)) e))
  ∧ Current m db
    = (db', (0, Some (ErrWrap (WhileCreatingVersionTable (VersionTable m)) e)))
  ∧ Up m db = (db', Some (ErrWrap (WhileCreatingVersionTable (VersionTable m)) e))
  ∧ ∀ before after filename sql,
      ReadFile (Filesystem m) filename = Some sql →
      Apply m db before after filename = (db', Some (ErrWrap (WhileApplying filename) e)).
Proof.
  intros Hbegin.
  assert (initializeSchemaVersion m db
    = (db', Some (ErrWrap (WhileCreatingVersionTable (VersionTable m)) e))) as Hinit
    by (unfold initializeSchemaVersion, BeginFunc; by rewrite Hbegin).
  assert (Current m db
    = (db', (0, Some (ErrWrap (WhileCreatingVersionTable (VersionTable m)) e)))) as Hcur
    by (unfold Current; by rewrite Hinit).
  split_and!; try done.
  - unfold Up. by rewrite Hcur.
  - intros before after filename sql Hread.
    unfold Apply, BeginFunc. by rewrite Hread, Hbegin.
Qed.

Lemma begin_failure_surfaces_witness :
  @Up unit unit offline_tx offline_conn two_step_catalog tt
  = (tt, Some (ErrWrap (WhileCreatingVersionTable "schema_version") (ErrPg PgConnFailed))).
Proof.
  by apply (@begin_failure_surfaces unit unit offline_tx offline_conn
              two_step_catalog tt tt (ErrPg PgConnFailed)).
Defined.

(** * Files of other kinds *)

Section GlobExtras.
Context `{SliceSorter}.

Lemma Glob_sql_sql_only (filesystem : FS) :
  Glob_sql (sql_only filesystem) = Glob_sql filesystem.
Proof.
  unfold Glob_sql, sql_only.
  induction filesystem as [|[name content] rest IH]; [done|].
  rewrite (filter_cons _ (name, content)). simpl.
  destruct (decide (HasSuffix name ".sql" = true)) as [Hn|Hn].
  - rewrite fmap_cons. simpl. rewrite !filter_cons_True by done.
    f_equal. exact IH.
  - rewrite filter_cons_False by done. exact IH.
Qed.

(** X8. The build sees the names that end in [.sql] and nothing else: files
    of other kinds in the patch store change neither the error nor the
    entries of the catalog, in the strict build as in the loose one. *)
Theorem build_sees_sql_files_only (filesystem : FS) (strict : bool) :
  (newMigrator filesystem strict).2 = (newMigrator (sql_only filesystem) strict).2
  ∧ MigrateUp (newMigrator filesystem strict).1
    = MigrateUp (newMigrator (sql_only filesystem) strict).1
  ∧ MigrateDown (newMigrator filesystem strict).1
    = MigrateDown (newMigrator (sql_only filesystem) strict).1
  ∧ Forall (λ v, HasSuffix (Filename v) ".sql" = true)
      (MigrateUp (newMigrator filesystem strict).1
       ++ MigrateDown (newMigrator filesystem strict).1).
Proof.
  destruct (newMigrator_scan filesystem (sql_only filesystem) strict strict)
    as (Herr & _ & Hup & Hdown); [by rewrite Glob_sql_sql_only|].
  split_and!; try done.
  destruct (newMigrator filesystem strict) as [m [e|]] eqn:E; simpl.
  { apply newMigrator_error in E as ->. constructor. }
  apply newMigrator_ok in E as (_ & _ & Hu & _ & Hd).
  assert (∀ d, Forall (λ v, HasSuffix (Filename v) ".sql" = true)
                 (sortSlice (entry <$> filter (λ f, is_script d f = true)
                                         (Glob_sql filesystem)))) as Hall.
  { intros d. apply Forall_forall. intros v Hv.
    rewrite (sortSlice_perm (entry <$> _)) in Hv.
    apply list_elem_of_fmap in Hv as (f & -> & Hf).
    apply list_elem_of_filter in Hf as [Hs _]. simpl.
    by eapply follows_convention_sql, is_script_follows. }
  apply Forall_app. split.
  - rewrite Hu. apply (Hall DirUp).
  - destruct Hd as [[_ ->]|(_ & -> & _)]; [constructor | apply (Hall DirDown)].
Qed.

End GlobExtras.

(** * The version row and [Apply] *)

Section ApplyExtras.
Context {U : Type} `{!ScriptEngine U}.
Implicit Types (m : Migrator) (db : PgConn U).

(** X14. [Apply] on a database whose version table is missing or empty: the
    read of the version fails, the call returns that failure wrapped
    twice, and neither the update nor the script is sent; the database
    is as it was. *)
Theorem Apply_needs_version_row m db before after filename sql :
  ReadFile (Filesystem m) filename = Some sql →
  version_of (VersionTable m) (committed db) = None →
  ∃ pe,
    Apply m db before after filename
    = (mkPgConn (committed db)
         (history db ++ [EvBegin; EvQuery (SqlSelectVersion (VersionTable m)); EvRollback]),
       Some (ErrWrap (WhileApplying filename)
               (ErrWrap WhileReadingCurrentVersion (ErrPg pe))))
    ∧ (pe = PgNoRows ∨ pe = PgUndefinedTable (VersionTable m)).
Proof.
  intros Hread Hnone. rewrite (Apply_pg _ _ _ _ _ _ Hread).
  unfold version_of in Hnone.
  destruct (tables (committed db) !! VersionTable m) as [[v|]|]; [done|..];
    eexists; split; eauto.
Qed.

(** X15. A step that was applied cannot be applied again: after an [Apply]
    from [before] to another version [after] that ended well, [Current]
    returns [after], and the same [Apply] is refused with the error of
    the two versions, without a write. *)
Theorem Apply_not_replayable m db db' before after filename :
  before ≠ after →
  is_Some (ReadFile (Filesystem m) filename) →
  Apply m db before after filename = (db', None) →
  (Current m db').2 = (after, None)
  ∧ Apply m db' before after filename
    = (mkPgConn (committed db')
         (history db' ++ [EvBegin; EvQuery (SqlSelectVersion (VersionTable m)); EvRollback]),
       Some (ErrWrap (WhileApplying filename) (ErrExpectedVersion before after))).
Proof.
  intros Hne [sql Hread] Happly.
  rewrite (Apply_pg _ _ _ _ _ _ Hread) in Happly.
  assert (tables (committed db') !! VersionTable m = Some (Some after)) as Hafter.
  { destruct (tables (committed db) !! VersionTable m) as [[v|]|]; [|done..].
    case_bool_decide; [|done].
    destruct (run_script sql (user (committed db))); [done|].
    injection Happly as <-. simpl. apply lookup_insert_eq. }
  split.
  - rewrite Current_pg. simpl. unfold persisted_version, version_of.
    by rewrite Hafter.
  - rewrite (Apply_pg _ _ _ _ _ _ Hread), Hafter.
    by rewrite bool_decide_eq_false_2 by done.
Qed.

End ApplyExtras.

Lemma Apply_needs_version_row_witness :
  ∃ pe,
    Apply two_step_catalog fresh_conn 0 1 "1_init.up.sql"
    = (mkPgConn (committed fresh_conn)
         (history fresh_conn
          ++ [EvBegin; EvQuery (SqlSelectVersion (VersionTable two_step_catalog));
              EvRollback]),
       Some (ErrWrap (WhileApplying "1_init.up.sql")
               (ErrWrap WhileReadingCurrentVersion (ErrPg pe))))
    ∧ (pe = PgNoRows ∨ pe = PgUndefinedTable (VersionTable two_step_catalog)).
Proof.
  apply (Apply_needs_version_row two_step_catalog fresh_conn 0 1 "1_init.up.sql"
           "create table t(x int);"); by vm_compute.
Defined.

Lemma Apply_not_replayable_witness :
  (Current two_step_catalog (Apply two_step_catalog zero_conn 0 1 "1_init.up.sql").1).2
  = (1, None).
Proof.
  refine (proj1 (Apply_not_replayable two_step_catalog zero_conn _ 0 1 "1_init.up.sql"
                   _ _ _)).
  - discriminate.
  - eexists. by vm_compute.
  - by vm_compute.
Defined.
